(** * vaiagent: the audio capture / playback / level-metering core

    A shallow embedding of the TypeScript sources

      - src/hooks/useAudioRecorder.ts   (module [Recorder])
      - the second copy of that hook     (module [Part002])
      - src/hooks/useSession.ts          (module [Session])
      - src/utils/audioApi.ts            (module [AudioApi])
      - the VoiceInterface component     (module [VoiceInterface])

    React refs and state cells become fields of a world record, the browser
    objects the hooks talk to (MediaRecorder, AudioContext, animation frames,
    promises, the audio element, localStorage) become explicit host state, and
    every function of the source is a computation in a small state-and-exception
    monad.  What the browser decides (the device answering getUserMedia, the
    spectrum an analyser reports, the HTTP response, whether audio.play()
    settles) is an argument of the computation that asks for it.

    Modelling decisions:
      - an async function runs to completion in one step, with the outcome of
        each awaited host operation supplied as an argument; React state
        setters take effect at once;
      - host constructors (new AudioContext, createAnalyser, new MediaRecorder,
        new Audio) succeed; what can fail is what the sources guard against:
        getUserMedia, fetch, audio.play(), stop() on an inactive recorder;
      - levels are exact rationals, not doubles;
      - the clock reading and the base-36 rendering of the random draw are
        inputs of [generateSessionId]. *)

From Stdlib Require Import QArith Ascii.
From stdpp Require Import base option list strings gmap pretty.

Local Open Scope string_scope.
Local Open Scope list_scope.

(** ** Values *)

(** A Blob is an immutable byte sequence with a MIME type. *)
Record Blob := mkBlob { blob_bytes : list Byte.byte; blob_type : string }.

Definition size (b : Blob) : nat := length (blob_bytes b).

(** [new Blob()] *)
Definition emptyBlob : Blob := mkBlob [] "".

(** [new Blob(parts, { type })]: the parts' bytes, concatenated in order. *)
Definition newBlob (parts : list Blob) (type : string) : Blob :=
  mkBlob (concat (map blob_bytes parts)) type.

(** What a [throw] carries: an [Error] (or a DOMException, which is one too). *)
Record Thrown := mkError { err_name : string; err_message : string }.

(** ** The monad of the embedding

    [Suspended] is an [await] on a promise that never settles: the rest of the
    async function does not run, and neither [catch] nor [finally] does. *)

Inductive Completion (A : Type) : Type :=
| Normal (a : A)
| Throw (e : Thrown)
| Suspended.
Arguments Normal {A} a.
Arguments Throw {A} e.
Arguments Suspended {A}.

Definition M (S A : Type) : Type := S → Completion A * S.

Global Instance M_ret {S} : MRet (M S) := λ A a s, (Normal a, s).

Global Instance M_bind {S} : MBind (M S) := λ A B f m s,
  match m s with
  | (Normal a, s') => f a s'
  | (Throw e, s') => (Throw e, s')
  | (Suspended, s') => (Suspended, s')
  end.

Definition throw {S A} (e : Thrown) : M S A := λ s, (Throw e, s).
Definition suspend {S A} : M S A := λ s, (Suspended, s).
Definition gets {S A} (f : S → A) : M S A := λ s, (Normal (f s), s).
Definition modify {S} (f : S → S) : M S unit := λ s, (Normal tt, f s).

(** [try { body } catch (e) { handler e }] *)
Definition try_catch {S A} (body : M S A) (handler : Thrown → M S A) : M S A :=
  λ s, match body s with
       | (Throw e, s') => handler e s'
       | r => r
       end.

(** [try { body } finally { fin }] *)
Definition try_finally {S A} (body : M S A) (fin : M S unit) : M S A :=
  λ s, match body s with
       | (Normal a, s') =>
           match fin s' with
           | (Normal _, s'') => (Normal a, s'')
           | (Throw e, s'') => (Throw e, s'')
           | (Suspended, s'') => (Suspended, s'')
           end
       | (Throw e, s') =>
           match fin s' with
           | (Normal _, s'') => (Throw e, s'')
           | (Throw e', s'') => (Throw e', s'')
           | (Suspended, s'') => (Suspended, s'')
           end
       | (Suspended, s') => (Suspended, s')
       end.

(** Running a computation for its final state only. *)
Definition exec {S A} (m : M S A) (s : S) : S := snd (m s).

(** Lifting a computation on a component of the state. *)
Definition zoom {S T A} (get : T → S) (set : S → T → T) (m : M S A) : M T A :=
  λ t, let (r, s') := m (get t) in (r, set s' t).

(** ** LevelMeter: the arithmetic of one sample *)

Definition fftSize : nat := 256.
Definition frequencyBinCount : nat := fftSize / 2.

(** [analyser.getByteFrequencyData(dataArray)] on a fresh
    [Uint8Array(frequencyBinCount)]: the analyser's current spectrum, one byte
    per bin. *)
Definition getByteFrequencyData (spectrum : nat → Byte.byte) : list Byte.byte :=
  map spectrum (seq 0 frequencyBinCount).

Definition byteZ (b : Byte.byte) : Z := Z.of_N (Byte.to_N b).

(** [dataArray.reduce((a, b) => a + b)]: no initial value, so the first element
    seeds the accumulator and an empty array is a TypeError ([None]).  The
    accumulator is a JS number, not a byte: nothing wraps. *)
Definition reduce_add (dataArray : list Byte.byte) : option Z :=
  match dataArray with
  | [] => None
  | a :: rest => Some (fold_left (λ acc b, (acc + byteZ b)%Z) rest (byteZ a))
  end.

(** [average / 255] with [average = reduce(...) / dataArray.length]. *)
Definition level (dataArray : list Byte.byte) : option Q :=
  match reduce_add dataArray with
  | None => None
  | Some total =>
      let average := (inject_Z total / inject_Z (Z.of_nat (length dataArray)))%Q in
      Some (average / 255)%Q
  end.

Definition typeError : Thrown :=
  mkError "TypeError" "Reduce of empty array with no initial value".

(** ** The recorder's world

    [Hook] holds the cells of [useAudioRecorder]: two pieces of React state and
    five refs.  Refs to browser objects are indices into the host tables of
    [Media]. *)

Record Hook := mkHook {
  isRecording : bool;
  audioLevel : Q;
  mediaRecorderRef : option nat;
  audioChunksRef : list Blob;
  audioContextRef : option nat;
  analyserRef : option nat;
  animationFrameRef : option nat
}.

Inductive RecordingState := inactive | recording.

Global Instance RecordingState_eq_dec : EqDecision RecordingState.
Proof. solve_decision. Defined.

(** A MediaRecorder object.  [mr_onstop] is the installed [onstop] closure,
    identified by the promise whose [resolve] it captured; [mr_stopQueued] is
    the task that [stop()] queues and that ends in the [stop] event. *)
Record MediaRecorder := mkRecorder {
  mr_state : RecordingState;
  mr_stream : nat;
  mr_ondataavailable : bool;
  mr_onstop : option nat;
  mr_stopQueued : bool
}.

Inductive PromiseState :=
| Pending
| Resolved (b : Blob)
| Rejected (e : Thrown).

(** The browser side.  [streams] and [contexts] record, per object, whether it
    is still live (tracks running, context open); [frames] are the animation
    frame requests not yet served, one per running sampling loop;
    [stopInactiveThrows] is the user agent's answer to [stop()] on an inactive
    recorder: older agents throw InvalidStateError, current ones return. *)
Record Media := mkMedia {
  recorders : list MediaRecorder;
  streams : list bool;
  contexts : list bool;
  analysers : nat;
  frames : list nat;
  nextFrame : nat;
  promises : list PromiseState;
  console : list string;
  stopInactiveThrows : bool
}.

Record World := mkWorld { hook : Hook; media : Media }.

Definition set_isRecording v h :=
  mkHook v (audioLevel h) (mediaRecorderRef h) (audioChunksRef h)
         (audioContextRef h) (analyserRef h) (animationFrameRef h).
Definition set_audioLevel v h :=
  mkHook (isRecording h) v (mediaRecorderRef h) (audioChunksRef h)
         (audioContextRef h) (analyserRef h) (animationFrameRef h).
Definition set_mediaRecorderRef v h :=
  mkHook (isRecording h) (audioLevel h) v (audioChunksRef h)
         (audioContextRef h) (analyserRef h) (animationFrameRef h).
Definition set_audioChunksRef v h :=
  mkHook (isRecording h) (audioLevel h) (mediaRecorderRef h) v
         (audioContextRef h) (analyserRef h) (animationFrameRef h).
Definition set_audioContextRef v h :=
  mkHook (isRecording h) (audioLevel h) (mediaRecorderRef h) (audioChunksRef h)
         v (analyserRef h) (animationFrameRef h).
Definition set_analyserRef v h :=
  mkHook (isRecording h) (audioLevel h) (mediaRecorderRef h) (audioChunksRef h)
         (audioContextRef h) v (animationFrameRef h).
Definition set_animationFrameRef v h :=
  mkHook (isRecording h) (audioLevel h) (mediaRecorderRef h) (audioChunksRef h)
         (audioContextRef h) (analyserRef h) v.

Definition set_recorders v m :=
  mkMedia v (streams m) (contexts m) (analysers m) (frames m) (nextFrame m)
          (promises m) (console m) (stopInactiveThrows m).
Definition set_streams v m :=
  mkMedia (recorders m) v (contexts m) (analysers m) (frames m) (nextFrame m)
          (promises m) (console m) (stopInactiveThrows m).
Definition set_contexts v m :=
  mkMedia (recorders m) (streams m) v (analysers m) (frames m) (nextFrame m)
          (promises m) (console m) (stopInactiveThrows m).
Definition set_analysers v m :=
  mkMedia (recorders m) (streams m) (contexts m) v (frames m) (nextFrame m)
          (promises m) (console m) (stopInactiveThrows m).
Definition set_frames v m :=
  mkMedia (recorders m) (streams m) (contexts m) (analysers m) v (nextFrame m)
          (promises m) (console m) (stopInactiveThrows m).
Definition set_nextFrame v m :=
  mkMedia (recorders m) (streams m) (contexts m) (analysers m) (frames m) v
          (promises m) (console m) (stopInactiveThrows m).
Definition set_promises v m :=
  mkMedia (recorders m) (streams m) (contexts m) (analysers m) (frames m)
          (nextFrame m) v (console m) (stopInactiveThrows m).
Definition set_console v m :=
  mkMedia (recorders m) (streams m) (contexts m) (analysers m) (frames m)
          (nextFrame m) (promises m) v (stopInactiveThrows m).

Definition upd_hook (f : Hook → Hook) : M World unit :=
  modify (λ w, mkWorld (f (hook w)) (media w)).
Definition upd_media (f : Media → Media) : M World unit :=
  modify (λ w, mkWorld (hook w) (f (media w))).

(** The world a freshly mounted hook sees: [useState(false)], [useState(0)],
    empty refs, nothing allocated.  Frame request ids start at 1 (they are
    non-zero, which is what [if (animationFrameRef.current)] relies on). *)
Definition initHook : Hook := mkHook false 0%Q None [] None None None.
Definition initMedia (throws : bool) : Media :=
  mkMedia [] [] [] 0 [] 1 [] [] throws.
Definition initWorld (throws : bool) : World := mkWorld initHook (initMedia throws).

(** ** Host operations *)

(** [navigator.mediaDevices.getUserMedia(...)]: the device answers with a
    rejection (permission denied, no input) or grants a fresh live stream. *)
Definition getUserMedia (device : option Thrown) : M World nat :=
  match device with
  | Some e => throw e
  | None =>
      n ← gets (λ w, length (streams (media w)));
      upd_media (λ m, set_streams (streams m ++ [true]) m);;
      mret n
  end.

(** [new AudioContext()] *)
Definition newAudioContext : M World nat :=
  n ← gets (λ w, length (contexts (media w)));
  upd_media (λ m, set_contexts (contexts m ++ [true]) m);;
  mret n.

(** [ctx.createAnalyser()] *)
Definition createAnalyser : M World nat :=
  n ← gets (λ w, analysers (media w));
  upd_media (set_analysers (S n));;
  mret n.

(** [ctx.close()] *)
Definition closeContext (c : nat) : M World unit :=
  upd_media (λ m, set_contexts (<[c:=false]> (contexts m)) m).

(** [stream.getTracks().forEach(track => track.stop())] *)
Definition stopTracks (s : nat) : M World unit :=
  upd_media (λ m, set_streams (<[s:=false]> (streams m)) m).

Definition requestAnimationFrame : M World nat :=
  id ← gets (λ w, nextFrame (media w));
  upd_media (λ m, set_frames (frames m ++ [id]) (set_nextFrame (S id) m));;
  mret id.

Definition cancelAnimationFrame (id : nat) : M World unit :=
  upd_media (λ m, set_frames (filter (λ j, j ≠ id) (frames m)) m).

Definition consoleLog (msg : string) : M World unit :=
  upd_media (λ m, set_console (console m ++ [msg]) m).

(** [new MediaRecorder(stream, { mimeType: 'audio/webm' })] *)
Definition newMediaRecorder (stream : nat) : M World nat :=
  n ← gets (λ w, length (recorders (media w)));
  upd_media (λ m,
    set_recorders (recorders m ++ [mkRecorder inactive stream false None false]) m);;
  mret n.

Definition upd_recorder (i : nat) (f : MediaRecorder → MediaRecorder) : M World unit :=
  upd_media (λ m, set_recorders (alter f i (recorders m)) m).

Definition getRecorder (i : nat) : M World (option MediaRecorder) :=
  gets (λ w, recorders (media w) !! i).

Definition invalidState : Thrown :=
  mkError "InvalidStateError" "The MediaRecorder's state is 'inactive'.".

(** [recorder.start()] *)
Definition mr_start (i : nat) : M World unit :=
  upd_recorder i (λ r, mkRecorder recording (mr_stream r) (mr_ondataavailable r)
                                  (mr_onstop r) (mr_stopQueued r)).

(** [recorder.stop()]: a recording recorder becomes inactive at once and the
    final flush and the [stop] event are queued; on an inactive recorder the
    call returns or throws, as the user agent has it. *)
Definition mr_stop (i : nat) : M World unit :=
  r ← getRecorder i;
  match r with
  | Some r =>
      match mr_state r with
      | recording =>
          upd_recorder i (λ r, mkRecorder inactive (mr_stream r)
                                 (mr_ondataavailable r) (mr_onstop r) true)
      | inactive =>
          t ← gets (λ w, stopInactiveThrows (media w));
          if t : bool then throw invalidState else mret tt
      end
  | None => mret tt
  end.

(** [new Promise(executor)]: the executor runs at once; an exception thrown
    inside it rejects the promise. *)
Definition settle (p : nat) (v : PromiseState) : M World unit :=
  upd_media (λ m,
    match promises m !! p with
    | Some Pending => set_promises (<[p:=v]> (promises m)) m
    | _ => m
    end).

Definition newPromise (executor : nat → M World unit) : M World nat :=
  p ← gets (λ w, length (promises (media w)));
  upd_media (λ m, set_promises (promises m ++ [Pending]) m);;
  try_catch (executor p) (λ e, settle p (Rejected e));;
  mret p.

Definition promiseState (p : nat) (w : World) : option PromiseState :=
  promises (media w) !! p.

(** ** useAudioRecorder: the parts both copies of the hook share *)

(** [analyzeAudio]: one sample of the attached analyser, then the request for
    the next frame. *)
Definition analyzeAudio (spectrum : nat → Byte.byte) : M World unit :=
  a ← gets (λ w, analyserRef (hook w));
  match a with
  | None => mret tt
  | Some _ =>
      let dataArray := getByteFrequencyData spectrum in
      match level dataArray with
      | None => throw typeError
      | Some l =>
          upd_hook (set_audioLevel l);;
          id ← requestAnimationFrame;
          upd_hook (set_animationFrameRef (Some id))
      end
  end.

(** [mediaRecorder.ondataavailable] *)
Definition ondataavailable (data : Blob) : M World unit :=
  if (0 <? size data)%nat
  then upd_hook (λ h, set_audioChunksRef (audioChunksRef h ++ [data]) h)
  else mret tt.

Definition set_ondataavailable (r : MediaRecorder) : MediaRecorder :=
  mkRecorder (mr_state r) (mr_stream r) true (mr_onstop r) (mr_stopQueued r).
Definition set_onstop (p : nat) (r : MediaRecorder) : MediaRecorder :=
  mkRecorder (mr_state r) (mr_stream r) (mr_ondataavailable r) (Some p)
             (mr_stopQueued r).
Definition clear_stopQueued (r : MediaRecorder) : MediaRecorder :=
  mkRecorder (mr_state r) (mr_stream r) (mr_ondataavailable r) (mr_onstop r) false.

(** [if (animationFrameRef.current) cancelAnimationFrame(...)]: [undefined] and
    0 are falsy. *)
Definition cancelCurrentFrame : M World unit :=
  f ← gets (λ w, animationFrameRef (hook w));
  match f with
  | Some (S n) => cancelAnimationFrame (S n)
  | _ => mret tt
  end.

(** [if (audioContextRef.current) audioContextRef.current.close()] *)
Definition closeCurrentContext : M World unit :=
  c ← gets (λ w, audioContextRef (hook w));
  match c with
  | Some c => closeContext c
  | None => mret tt
  end.

(** ** What the browser does to a hook between calls

    The host delivers a fragment to a recorder that is recording or flushing,
    fires the queued [stop] event, and serves a pending animation frame.  The
    two copies of the hook differ in [startRecording], [stopRecording] and the
    [onstop] closure, so the event semantics takes those as an implementation
    record. *)

Record HookImpl := mkImpl {
  impl_start : option Thrown → (nat → Byte.byte) → M World unit;
  impl_stop : M World nat;
  impl_onstop : nat → nat → M World unit
}.

Definition fire_dataavailable (i : nat) (data : Blob) : M World unit :=
  r ← getRecorder i;
  match r with
  | Some r =>
      if (bool_decide (mr_state r = recording) || mr_stopQueued r)
         && mr_ondataavailable r
      then ondataavailable data
      else mret tt
  | None => mret tt
  end.

Definition fire_stop (I : HookImpl) (i : nat) : M World unit :=
  r ← getRecorder i;
  match r with
  | Some r =>
      if mr_stopQueued r then
        upd_recorder i clear_stopQueued;;
        match mr_onstop r with
        | Some resolve => impl_onstop I i resolve
        | None => mret tt
        end
      else mret tt
  | None => mret tt
  end.

Definition fire_frame (id : nat) (spectrum : nat → Byte.byte) : M World unit :=
  fs ← gets (λ w, frames (media w));
  if bool_decide (id ∈ fs) then
    upd_media (λ m, set_frames (filter (λ j, j ≠ id) (frames m)) m);;
    analyzeAudio spectrum
  else mret tt.

Inductive Action :=
| Start (device : option Thrown) (spectrum : nat → Byte.byte)
| Stop
| Data (i : nat) (data : Blob)
| Stopped (i : nat)
| Frame (id : nat) (spectrum : nat → Byte.byte).

Definition perform (I : HookImpl) (a : Action) (w : World) : World :=
  match a with
  | Start device spectrum => exec (impl_start I device spectrum) w
  | Stop => exec (impl_stop I) w
  | Data i data => exec (fire_dataavailable i data) w
  | Stopped i => exec (fire_stop I i) w
  | Frame id spectrum => exec (fire_frame id spectrum) w
  end.

Definition run (I : HookImpl) (acts : list Action) (w : World) : World :=
  fold_left (λ w a, perform I a w) acts w.

(** The worlds a hook can be in: any run from a fresh mount, on either kind of
    user agent. *)
Definition reachable (I : HookImpl) (w : World) : Prop :=
  ∃ throws acts, w = run I acts (initWorld throws).

(** ** src/hooks/useAudioRecorder.ts *)

Module Recorder.

(** [mediaRecorderRef.current && mediaRecorderRef.current.state !== 'inactive'] *)
Definition stillActive (w : World) : bool :=
  match mediaRecorderRef (hook w) with
  | None => false
  | Some i =>
      match recorders (media w) !! i with
      | Some r => bool_decide (mr_state r ≠ inactive)
      | None => false
      end
  end.

Definition startRecording (device : option Thrown) (spectrum : nat → Byte.byte)
  : M World unit :=
  try_catch
    (active ← gets stillActive;
     if active : bool then
       consoleLog "Previous recording still active, waiting..."
     else
       stream ← getUserMedia device;
       ctx ← newAudioContext;
       upd_hook (set_audioContextRef (Some ctx));;
       an ← createAnalyser;
       upd_hook (set_analyserRef (Some an));;
       (* source.connect(analyser); analyser.fftSize = 256, see [fftSize] *)
       analyzeAudio spectrum;;
       mediaRecorder ← newMediaRecorder stream;
       upd_hook (set_audioChunksRef []);;
       upd_recorder mediaRecorder set_ondataavailable;;
       mr_start mediaRecorder;;
       upd_hook (set_mediaRecorderRef (Some mediaRecorder));;
       upd_hook (set_isRecording true))
    (λ error, consoleLog "Error starting recording:";; throw error).

(** [recorder.onstop], with the [recorder] and [resolve] it closes over. *)
Definition onstop (recorder resolve : nat) : M World unit :=
  chunks ← gets (λ w, audioChunksRef (hook w));
  let audioBlob := newBlob chunks "audio/webm" in
  consoleLog "Recording stopped";;
  upd_hook (set_audioChunksRef []);;
  r ← getRecorder recorder;
  match r with
  | Some r => stopTracks (mr_stream r)
  | None => mret tt
  end;;
  cancelCurrentFrame;;
  closeCurrentContext;;
  upd_hook (set_isRecording false);;
  upd_hook (set_audioLevel 0%Q);;
  upd_hook (set_mediaRecorderRef None);;
  settle resolve (Resolved audioBlob).

Definition stopRecording : M World nat :=
  newPromise (λ resolve,
    r ← gets (λ w, mediaRecorderRef (hook w));
    match r with
    | None => settle resolve (Resolved emptyBlob)
    | Some recorder =>
        upd_recorder recorder (set_onstop resolve);;
        mr_stop recorder
    end).

Definition impl : HookImpl := mkImpl startRecording stopRecording onstop.

End Recorder.

(** ** The second copy of the hook (unnamed/part_002)

    No guard in [startRecording]; [onstop] reads the recorder through
    [mediaRecorderRef.current] and leaves the ref in place. *)

Module Part002.

Definition startRecording (device : option Thrown) (spectrum : nat → Byte.byte)
  : M World unit :=
  try_catch
    (stream ← getUserMedia device;
     ctx ← newAudioContext;
     upd_hook (set_audioContextRef (Some ctx));;
     an ← createAnalyser;
     upd_hook (set_analyserRef (Some an));;
     (* source.connect(analyser); analyser.fftSize = 256, see [fftSize] *)
     analyzeAudio spectrum;;
     mediaRecorder ← newMediaRecorder stream;
     upd_hook (set_audioChunksRef []);;
     upd_recorder mediaRecorder set_ondataavailable;;
     mr_start mediaRecorder;;
     upd_hook (set_mediaRecorderRef (Some mediaRecorder));;
     upd_hook (set_isRecording true))
    (λ error, consoleLog "Error starting recording:";; throw error).

(** [mediaRecorderRef.current.onstop]; the event's recorder is not used. *)
Definition onstop (_ resolve : nat) : M World unit :=
  chunks ← gets (λ w, audioChunksRef (hook w));
  let audioBlob := newBlob chunks "audio/webm" in
  upd_hook (set_audioChunksRef []);;
  cur ← gets (λ w, mediaRecorderRef (hook w));
  match cur with
  | Some i =>
      r ← getRecorder i;
      match r with
      | Some r => stopTracks (mr_stream r)
      | None => mret tt
      end
  | None => mret tt
  end;;
  cancelCurrentFrame;;
  closeCurrentContext;;
  upd_hook (set_isRecording false);;
  upd_hook (set_audioLevel 0%Q);;
  settle resolve (Resolved audioBlob).

Definition stopRecording : M World nat :=
  newPromise (λ resolve,
    r ← gets (λ w, mediaRecorderRef (hook w));
    match r with
    | None => settle resolve (Resolved emptyBlob)
    | Some recorder =>
        upd_recorder recorder (set_onstop resolve);;
        mr_stop recorder
    end).

Definition impl : HookImpl := mkImpl startRecording stopRecording onstop.

End Part002.

(** ** src/utils/audioApi.ts *)

Module AudioApi.

Definition API_URL : string := "https://n8n.pesenin.my.id/webhook/voice-agent".

(** The multipart POST that [fetch] is handed. *)
Record Request := mkRequest {
  req_url : string;
  req_method : string;
  req_audio : Blob;
  req_filename : string;
  req_session : string
}.

Record Response := mkResponse {
  status : nat;
  statusText : string;
  body : Blob
}.

(** [response.ok]: the status is in the range 200 to 299 (Fetch standard). *)
Definition ok (r : Response) : bool :=
  (200 <=? status r)%nat && (status r <=? 299)%nat.

(** [fetch(API_URL, { method: 'POST', body: formData })]: the request goes
    out; the network answers with a failure or a response. *)
Definition fetch (rq : Request) (answer : Thrown + Response)
  : M (list Request) Response :=
  modify (λ sent, (sent ++ [rq])%list);;
  match answer with
  | inl e => throw e
  | inr r => mret r
  end.

Definition sendAudioToAPI (audioBlob : Blob) (sessionId : string)
    (answer : Thrown + Response) : M (list Request) Blob :=
  let formData := mkRequest API_URL "POST" audioBlob "recording.webm" sessionId in
  response ← fetch formData answer;
  if negb (ok response)
  then throw (mkError "Error" ("API request failed: " +:+ statusText response))
  else
    let responseAudioBlob := body response in
    mret responseAudioBlob.

End AudioApi.

(** ** src/hooks/useSession.ts *)

Module Session.

Definition SESSION_KEY : string := "voice_ai_session".

(** [`session_${Date.now()}_${Math.random().toString(36).substr(2, 9)}`]:
    [now] is the clock reading in epoch milliseconds and [random36] the
    base-36 rendering of the random draw (a string such as "0.4fzyo82mv"). *)
Definition generateSessionId (now : N) (random36 : string) : string :=
  "session_" +:+ pretty now +:+ "_" +:+ String.substring 2 9 random36.

Record SessionWorld := mkSession {
  sessionId : string;
  localStorage : gmap string string
}.

Definition initSession (stored : gmap string string) : SessionWorld :=
  mkSession "" stored.

Definition setSessionId (v : string) : M SessionWorld unit :=
  modify (λ s, mkSession v (localStorage s)).
Definition setItem (k v : string) : M SessionWorld unit :=
  modify (λ s, mkSession (sessionId s) (<[k:=v]> (localStorage s))).
Definition getItem (k : string) : M SessionWorld (option string) :=
  gets (λ s, localStorage s !! k).

(** The mount effect of [useSession]. *)
Definition mountEffect (now : N) (random36 : string) : M SessionWorld unit :=
  existingSession ← getItem SESSION_KEY;
  match existingSession with
  | Some s =>
      if decide (s = "") then
        let fresh := generateSessionId now random36 in
        setItem SESSION_KEY fresh;; setSessionId fresh
      else setSessionId s
  | None =>
      let fresh := generateSessionId now random36 in
      setItem SESSION_KEY fresh;; setSessionId fresh
  end.

Definition resetSession (now : N) (random36 : string) : M SessionWorld unit :=
  let newSession := generateSessionId now random36 in
  setItem SESSION_KEY newSession;;
  setSessionId newSession.

End Session.

(** The recorder hook's frame event, under a name the component's own
    [fire_frame] does not hide. *)
Definition recorder_fire_frame := fire_frame.

(** ** The VoiceInterface component (unnamed/part_001) *)

Module VoiceInterface.

Record Toast := mkToast {
  title : string;
  description : string;
  destructive : bool
}.

(** The one [Audio] element: its [src] (an object URL), and the [onplay] and
    [onended] closures; [onended] captured the URL it revokes.  No [onerror]
    handler is ever installed. *)
Record AudioElement := mkAudio {
  el_src : option nat;
  el_onplay : bool;
  el_onended : option nat
}.

Inductive Node :=
| NSource (i : nat)
| NAnalyser (i : nat)
| NDestination (ctx : nat).

(** React state and refs of the component. *)
Record UI := mkUI {
  isProcessing : bool;
  isPlaying : bool;
  playbackLevel : Q;
  audioRef : option nat;
  audioContextRef : option nat;
  analyserRef : option nat;
  sourceRef : option nat;
  animationFrameRef : option nat
}.

(** The page's side of playback: every object ever constructed, the edges of
    the audio graph, object URLs with their liveness, pending animation frame
    requests of the playback loop, and the toasts shown. *)
Record Dom := mkDom {
  audioElements : list AudioElement;
  audioContexts : nat;
  analyserNodes : nat;
  elementSources : list nat;
  connections : list (Node * Node);
  objectURLs : list (Blob * bool);
  rafQueue : list nat;
  rafNext : nat;
  toasts : list Toast
}.

Record App := mkApp {
  recw : World;
  sess : Session.SessionWorld;
  ui : UI;
  dom : Dom;
  requests : list AudioApi.Request
}.

Definition set_isProcessing v u :=
  mkUI v (isPlaying u) (playbackLevel u) (audioRef u) (audioContextRef u)
    (analyserRef u) (sourceRef u) (animationFrameRef u).
Definition set_isPlaying v u :=
  mkUI (isProcessing u) v (playbackLevel u) (audioRef u) (audioContextRef u)
    (analyserRef u) (sourceRef u) (animationFrameRef u).
Definition set_playbackLevel v u :=
  mkUI (isProcessing u) (isPlaying u) v (audioRef u) (audioContextRef u)
    (analyserRef u) (sourceRef u) (animationFrameRef u).
Definition set_audioRef v u :=
  mkUI (isProcessing u) (isPlaying u) (playbackLevel u) v
    (audioContextRef u) (analyserRef u) (sourceRef u) (animationFrameRef u).
Definition set_audioContextRef v u :=
  mkUI (isProcessing u) (isPlaying u) (playbackLevel u) (audioRef u) v
    (analyserRef u) (sourceRef u) (animationFrameRef u).
Definition set_analyserRef v u :=
  mkUI (isProcessing u) (isPlaying u) (playbackLevel u) (audioRef u)
    (audioContextRef u) v (sourceRef u) (animationFrameRef u).
Definition set_sourceRef v u :=
  mkUI (isProcessing u) (isPlaying u) (playbackLevel u) (audioRef u)
    (audioContextRef u) (analyserRef u) v (animationFrameRef u).
Definition set_animationFrameRef v u :=
  mkUI (isProcessing u) (isPlaying u) (playbackLevel u) (audioRef u)
    (audioContextRef u) (analyserRef u) (sourceRef u) v.

Definition set_audioElements v d :=
  mkDom v (audioContexts d) (analyserNodes d) (elementSources d)
    (connections d) (objectURLs d) (rafQueue d) (rafNext d) (toasts d).
Definition set_audioContexts v d :=
  mkDom (audioElements d) v (analyserNodes d) (elementSources d)
    (connections d) (objectURLs d) (rafQueue d) (rafNext d) (toasts d).
Definition set_analyserNodes v d :=
  mkDom (audioElements d) (audioContexts d) v (elementSources d)
    (connections d) (objectURLs d) (rafQueue d) (rafNext d) (toasts d).
Definition set_elementSources v d :=
  mkDom (audioElements d) (audioContexts d) (analyserNodes d) v
    (connections d) (objectURLs d) (rafQueue d) (rafNext d) (toasts d).
Definition set_connections v d :=
  mkDom (audioElements d) (audioContexts d) (analyserNodes d)
    (elementSources d) v (objectURLs d) (rafQueue d) (rafNext d) (toasts d).
Definition set_objectURLs v d :=
  mkDom (audioElements d) (audioContexts d) (analyserNodes d)
    (elementSources d) (connections d) v (rafQueue d) (rafNext d)
    (toasts d).
Definition set_rafQueue v d :=
  mkDom (audioElements d) (audioContexts d) (analyserNodes d)
    (elementSources d) (connections d) (objectURLs d) v (rafNext d)
    (toasts d).
Definition set_rafNext v d :=
  mkDom (audioElements d) (audioContexts d) (analyserNodes d)
    (elementSources d) (connections d) (objectURLs d) (rafQueue d) v
    (toasts d).
Definition set_toasts v d :=
  mkDom (audioElements d) (audioContexts d) (analyserNodes d)
    (elementSources d) (connections d) (objectURLs d) (rafQueue d)
    (rafNext d) v.

Definition set_recw v a :=
  mkApp v (sess a) (ui a) (dom a) (requests a).
Definition set_sess v a :=
  mkApp (recw a) v (ui a) (dom a) (requests a).
Definition set_ui v a :=
  mkApp (recw a) (sess a) v (dom a) (requests a).
Definition set_dom v a :=
  mkApp (recw a) (sess a) (ui a) v (requests a).
Definition set_requests v a :=
  mkApp (recw a) (sess a) (ui a) (dom a) v.

Definition upd_ui (f : UI → UI) : M App unit := modify (λ a, set_ui (f (ui a)) a).
Definition upd_dom (f : Dom → Dom) : M App unit :=
  modify (λ a, set_dom (f (dom a)) a).
Definition inRecorder {A} (m : M World A) : M App A := zoom recw set_recw m.
Definition inSession {A} (m : M Session.SessionWorld A) : M App A :=
  zoom sess set_sess m.
Definition inNetwork {A} (m : M (list AudioApi.Request) A) : M App A :=
  zoom requests set_requests m.

Definition initUI : UI := mkUI false false 0%Q None None None None None.
Definition initDom : Dom := mkDom [] 0 0 [] [] [] [] 1 [].
Definition initApp (throws : bool) (stored : gmap string string) : App :=
  mkApp (initWorld throws) (Session.initSession stored) initUI initDom [].

Definition toast (t : Toast) : M App unit :=
  upd_dom (λ d, set_toasts (toasts d ++ [t]) d).
Definition setIsProcessing (v : bool) : M App unit := upd_ui (set_isProcessing v).
Definition setIsPlaying (v : bool) : M App unit := upd_ui (set_isPlaying v).
Definition setPlaybackLevel (v : Q) : M App unit := upd_ui (set_playbackLevel v).

(** *** Host operations of playback *)

Definition createObjectURL (b : Blob) : M App nat :=
  n ← gets (λ a, length (objectURLs (dom a)));
  upd_dom (λ d, set_objectURLs (objectURLs d ++ [(b, true)]) d);;
  mret n.

Definition revokeObjectURL (u : nat) : M App unit :=
  upd_dom (λ d, set_objectURLs (alter (λ e, (e.1, false)) u (objectURLs d)) d).

(** [new Audio()] *)
Definition newAudio : M App nat :=
  n ← gets (λ a, length (audioElements (dom a)));
  upd_dom (λ d, set_audioElements (audioElements d ++ [mkAudio None false None]) d);;
  mret n.

(** [new AudioContext()] *)
Definition newAudioContext : M App nat :=
  n ← gets (λ a, audioContexts (dom a));
  upd_dom (set_audioContexts (S n));;
  mret n.

(** [ctx.createAnalyser()] *)
Definition createAnalyser : M App nat :=
  n ← gets (λ a, analyserNodes (dom a));
  upd_dom (set_analyserNodes (S n));;
  mret n.

(** [ctx.createMediaElementSource(audio)]: an element can be wired into one
    graph only; a second source for it is an InvalidStateError. *)
Definition createMediaElementSource (audio : nat) : M App nat :=
  wired ← gets (λ a, elementSources (dom a));
  if bool_decide (audio ∈ wired)
  then throw (mkError "InvalidStateError"
                "HTMLMediaElement already connected to a different MediaElementSourceNode.")
  else
    upd_dom (set_elementSources (wired ++ [audio]));;
    mret (length wired).

Definition connect (from to : Node) : M App unit :=
  upd_dom (λ d, set_connections (connections d ++ [(from, to)]) d).

Definition upd_audio (i : nat) (f : AudioElement → AudioElement) : M App unit :=
  upd_dom (λ d, set_audioElements (alter f i (audioElements d)) d).

Definition requestAnimationFrame : M App nat :=
  id ← gets (λ a, rafNext (dom a));
  upd_dom (λ d, set_rafQueue (rafQueue d ++ [id]) (set_rafNext (S id) d));;
  mret id.

Definition cancelAnimationFrame (id : nat) : M App unit :=
  upd_dom (λ d, set_rafQueue (filter (λ j, j ≠ id) (rafQueue d)) d).

(** *** The component's functions *)

Definition analyzePlayback (spectrum : nat → Byte.byte) : M App unit :=
  a ← gets (λ a, analyserRef (ui a));
  match a with
  | None => mret tt
  | Some _ =>
      let dataArray := getByteFrequencyData spectrum in
      match level dataArray with
      | None => throw typeError
      | Some l =>
          setPlaybackLevel l;;
          id ← requestAnimationFrame;
          upd_ui (set_animationFrameRef (Some id))
      end
  end.

(** [audio.onplay] *)
Definition onplay (spectrum : nat → Byte.byte) : M App unit :=
  setIsPlaying true;;
  analyzePlayback spectrum.

(** [audio.onended], with the [audioUrl] it closes over. *)
Definition onended (audioUrl : nat) : M App unit :=
  setIsPlaying false;;
  setPlaybackLevel 0%Q;;
  f ← gets (λ a, animationFrameRef (ui a));
  match f with
  | Some (S n) => cancelAnimationFrame (S n)
  | _ => mret tt
  end;;
  revokeObjectURL audioUrl.

(** How [audio.play()] turns out: playback starts (the [play] event fires and
    the promise resolves); the call is refused outright (no output device,
    autoplay blocked); or the [play] event fires and the promise then rejects
    because the source cannot be decoded. *)
Inductive PlayOutcome :=
| Started
| Refused (e : Thrown)
| Undecodable (e : Thrown).

Definition play (audio : nat) (outcome : PlayOutcome) (spectrum : nat → Byte.byte)
  : M App unit :=
  el ← gets (λ a, audioElements (dom a) !! audio);
  let fire_play :=
    match el with
    | Some el => if el_onplay el then onplay spectrum else mret tt
    | None => mret tt
    end in
  match outcome with
  | Started => fire_play
  | Refused e => throw e
  | Undecodable e => fire_play;; throw e
  end.

Definition playbackErrorToast : Toast :=
  mkToast "Playback Error" "Failed to play AI response" true.

Definition playAudioResponse (audioBlob : Blob) (outcome : PlayOutcome)
    (spectrum : nat → Byte.byte) : M App unit :=
  try_catch
    (audioUrl ← createObjectURL audioBlob;
     r ← gets (λ a, audioRef (ui a));
     audio ← match r with
             | Some audio => mret audio
             | None =>
                 audio ← newAudio;
                 upd_ui (set_audioRef (Some audio));;
                 mret audio
             end;
     c ← gets (λ a, audioContextRef (ui a));
     ctx ← match c with
           | Some ctx => mret ctx
           | None =>
               ctx ← newAudioContext;
               upd_ui (set_audioContextRef (Some ctx));;
               mret ctx
           end;
     n ← gets (λ a, analyserRef (ui a));
     analyser ← match n with
                | Some analyser => mret analyser
                | None =>
                    analyser ← createAnalyser;
                    upd_ui (set_analyserRef (Some analyser));;
                    mret analyser
                end;
     s ← gets (λ a, sourceRef (ui a));
     match s with
     | Some _ => mret tt
     | None =>
         source ← createMediaElementSource audio;
         upd_ui (set_sourceRef (Some source));;
         connect (NSource source) (NAnalyser analyser);;
         connect (NAnalyser analyser) (NDestination ctx)
     end;;
     upd_audio audio (λ _, mkAudio (Some audioUrl) true (Some audioUrl));;
     play audio outcome spectrum)
    (λ error,
       inRecorder (consoleLog "Error playing audio:");;
       setIsPlaying false;;
       setPlaybackLevel 0%Q;;
       toast playbackErrorToast).

(** *** Events of the audio element after [play()] *)

(** [ended] *)
Definition fire_ended (audio : nat) : M App unit :=
  el ← gets (λ a, audioElements (dom a) !! audio);
  match el with
  | Some el =>
      match el_onended el with
      | Some audioUrl => onended audioUrl
      | None => mret tt
      end
  | None => mret tt
  end.

(** [error] (the device goes away, the stream stops decoding): the element
    has no handler for it, so no code of the component runs. *)
Definition fire_error (audio : nat) : M App unit := mret tt.

Definition fire_frame (id : nat) (spectrum : nat → Byte.byte) : M App unit :=
  fs ← gets (λ a, rafQueue (dom a));
  if bool_decide (id ∈ fs) then
    upd_dom (λ d, set_rafQueue (filter (λ j, j ≠ id) (rafQueue d)) d);;
    analyzePlayback spectrum
  else mret tt.

(** *** handleToggleRecording *)

(** [await stopRecording()]: the call, then what the browser does while the
    caller is parked on the promise (the recorder being stopped flushes its
    last fragments and fires [stop]), then the promise's verdict. *)
Definition awaitStopRecording (flush : list Blob) : M World Blob :=
  target ← gets (λ w, mediaRecorderRef (hook w));
  p ← Recorder.stopRecording;
  match target with
  | Some i =>
      foldr (λ data k, fire_dataavailable i data;; k)
            (fire_stop Recorder.impl i) flush
  | None => mret tt
  end;;
  st ← gets (promiseState p);
  match st with
  | Some (Resolved b) => mret b
  | Some (Rejected e) => throw e
  | _ => suspend
  end.

(** Everything the environment decides during one toggle. *)
Record Env := mkEnv {
  device : option Thrown;
  spectrum : nat → Byte.byte;
  flush : list Blob;
  answer : Thrown + AudioApi.Response;
  outcome : PlayOutcome
}.

Definition sessionErrorToast : Toast :=
  mkToast "Session Error" "Session not initialized" true.
Definition errorToast (error : Thrown) : Toast :=
  mkToast "Error" (err_message error) true.
Definition recordingStartedToast : Toast :=
  mkToast "Recording Started" "Speak now..." false.
Definition recordingErrorToast : Toast :=
  mkToast "Recording Error" "Failed to access microphone" true.
Definition sessionResetToast : Toast :=
  mkToast "Session Reset" "Started a new conversation" false.

Definition handleToggleRecording (env : Env) : M App unit :=
  recordingNow ← gets (λ a, isRecording (hook (recw a)));
  if recordingNow : bool then
    setIsProcessing true;;
    try_finally
      (try_catch
         (audioBlob ← inRecorder (awaitStopRecording (flush env));
          sessionId ← gets (λ a, Session.sessionId (sess a));
          if decide (sessionId = "") then
            toast sessionErrorToast;;
            setIsProcessing false
          else
            responseBlob ←
              inNetwork (AudioApi.sendAudioToAPI audioBlob sessionId (answer env));
            playAudioResponse responseBlob (outcome env) (spectrum env))
         (λ error,
            inRecorder (consoleLog "Error processing audio:");;
            toast (errorToast error)))
      (setIsProcessing false)
  else
    try_catch
      (inRecorder (Recorder.startRecording (device env) (spectrum env));;
       toast recordingStartedToast)
      (λ error,
         inRecorder (consoleLog "Error starting recording:");;
         toast recordingErrorToast).

Definition handleResetSession (now : N) (random36 : string) : M App unit :=
  inSession (Session.resetSession now random36);;
  toast sessionResetToast.

Definition isActive (a : App) : bool :=
  isRecording (hook (recw a)) || isPlaying (ui a).
Definition currentLevel (a : App) : Q :=
  if isRecording (hook (recw a)) then audioLevel (hook (recw a))
  else playbackLevel (ui a).

(** *** Runs of the component *)

Inductive Action :=
| Mount (now : N) (random36 : string)
| Toggle (env : Env)
| Reset (now : N) (random36 : string)
| Play (audioBlob : Blob) (outcome : PlayOutcome) (spectrum : nat → Byte.byte)
| Ended (audio : nat)
| ErrorEvent (audio : nat)
| PlaybackFrame (id : nat) (spectrum : nat → Byte.byte)
| RecorderFrame (id : nat) (spectrum : nat → Byte.byte).

Definition perform (act : Action) (a : App) : App :=
  match act with
  | Mount now random36 => exec (inSession (Session.mountEffect now random36)) a
  | Toggle env => exec (handleToggleRecording env) a
  | Reset now random36 => exec (handleResetSession now random36) a
  | Play audioBlob outcome spectrum =>
      exec (playAudioResponse audioBlob outcome spectrum) a
  | Ended audio => exec (fire_ended audio) a
  | ErrorEvent audio => exec (fire_error audio) a
  | PlaybackFrame id spectrum => exec (fire_frame id spectrum) a
  | RecorderFrame id spectrum =>
      exec (inRecorder (recorder_fire_frame id spectrum)) a
  end.

Definition run (acts : list Action) (a : App) : App :=
  fold_left (λ a act, perform act a) acts a.

Definition reachable (a : App) : Prop :=
  ∃ throws stored acts, a = run acts (initApp throws stored).

(** The playback graph as the component holds it: the four refs and every
    object and edge ever constructed for it. *)
Definition graph (a : App)
  : option nat * option nat * option nat * option nat
    * nat * nat * nat * list nat * list (Node * Node) :=
  (audioRef (ui a), audioContextRef (ui a), analyserRef (ui a), sourceRef (ui a),
   length (audioElements (dom a)), audioContexts (dom a), analyserNodes (dom a),
   elementSources (dom a), connections (dom a)).

(** The graph before anything is built, and the graph one [playAudioResponse]
    builds: one element, one context, one analyser, one element source, and
    the two edges source -> analyser -> destination. *)
Definition pristine_graph
  : option nat * option nat * option nat * option nat
    * nat * nat * nat * list nat * list (Node * Node) :=
  (None, None, None, None, 0, 0, 0, [], []).

Definition built_graph
  : option nat * option nat * option nat * option nat
    * nat * nat * nat * list nat * list (Node * Node) :=
  (Some 0, Some 0, Some 0, Some 0, 1, 1, 1, [0],
   [(NSource 0, NAnalyser 0); (NAnalyser 0, NDestination 0)]).

Definition graph_complete (a : App) : Prop :=
  is_Some (audioRef (ui a)) ∧ is_Some (audioContextRef (ui a))
  ∧ is_Some (analyserRef (ui a)) ∧ is_Some (sourceRef (ui a)).

(** With no analyser attached the exposed playback level is 0. *)
Definition playback_level_inv (a : App) : Prop :=
  analyserRef (ui a) = None → playbackLevel (ui a) = 0%Q.

End VoiceInterface.

(** ** Vocabulary of the properties *)

(** Sum and arithmetic mean of a vector of bins. *)
Definition total (dataArray : list Byte.byte) : Z :=
  foldr (λ b acc, (byteZ b + acc)%Z) 0%Z dataArray.
Definition mean (dataArray : list Byte.byte) : Q :=
  (inject_Z (total dataArray) / inject_Z (Z.of_nat (length dataArray)))%Q.

(** Recorder states.  Idle is what the hook reports ([isRecording] false);
    Capturing is a current recorder in state 'recording'. *)
Definition idle (w : World) : Prop := isRecording (hook w) = false.
Definition capturing (w : World) : Prop :=
  ∃ i r, mediaRecorderRef (hook w) = Some i
         ∧ recorders (media w) !! i = Some r
         ∧ mr_state r = recording.

(** What reaches a recording between its start and its stop: fragments from
    the encoder and animation frames of the sampling loop. *)
Inductive Delivery :=
| Fragment (data : Blob)
| Tick (id : nat) (spectrum : nat → Byte.byte).

Definition deliver (i : nat) (d : Delivery) : Action :=
  match d with
  | Fragment data => Data i data
  | Tick id spectrum => Frame id spectrum
  end.

Definition fragments (ds : list Delivery) : list Blob :=
  omap (λ d, match d with Fragment data => Some data | Tick _ _ => None end) ds.

(** One recording on recorder [i]: start, deliveries, the stop request, the
    final flush, the [stop] event. *)
Definition recording_session (i : nat) (spectrum : nat → Byte.byte)
    (during : list Delivery) (flush : list Blob) : list Action :=
  Start None spectrum :: map (deliver i) during
    ++ Stop :: map (Data i) flush ++ [Stopped i].

(** Fragments that pass the [size > 0] test of [ondataavailable]. *)
Definition kept (cs : list Blob) : list Blob := filter (λ b, (0 < size b)%nat) cs.

(** Recorder [i] on stream [s] is recording, the next promise will be [p], and
    the chunk buffer holds [cs]. *)
Definition recording_inv (i s p : nat) (cs : list Blob) (w : World) : Prop :=
  mediaRecorderRef (hook w) = Some i
  ∧ recorders (media w) !! i = Some (mkRecorder recording s true None false)
  ∧ length (promises (media w)) = p
  ∧ audioChunksRef (hook w) = cs.

(** Recorder [i] has been asked to stop on behalf of promise [p] and has not
    fired [stop] yet. *)
Definition flushing_inv (i s p : nat) (cs : list Blob) (w : World) : Prop :=
  mediaRecorderRef (hook w) = Some i
  ∧ recorders (media w) !! i = Some (mkRecorder inactive s true (Some p) true)
  ∧ promises (media w) !! p = Some Pending
  ∧ audioChunksRef (hook w) = cs.

Definition stopping (i p : nat) (w : World) : Prop :=
  ∃ r, recorders (media w) !! i = Some r
       ∧ mr_onstop r = Some p
       ∧ mr_stopQueued r = true
       ∧ promises (media w) !! p = Some Pending.


(** With no analyser attached the exposed level is 0. *)
Definition level_inv (w : World) : Prop :=
  analyserRef (hook w) = None → audioLevel (hook w) = 0%Q.

(** A hook that reports not recording holds no recorder. *)
Definition ref_inv (w : World) : Prop :=
  isRecording (hook w) = false → mediaRecorderRef (hook w) = None.

(** Promise [p] is pending and no recorder that still owes a [stop] event
    holds its [resolve]: nothing will ever settle it. *)
Definition orphaned (p : nat) (w : World) : Prop :=
  promises (media w) !! p = Some Pending
  ∧ ∀ j r, recorders (media w) !! j = Some r →
           mr_stopQueued r = true → mr_onstop r ≠ Some p.

(** Strings without the separator of a session id. *)
Fixpoint no_sep (s : string) : Prop :=
  match s with
  | EmptyString => True
  | String c s' => c ≠ "_"%char ∧ no_sep s'
  end.

(** ** Concrete inputs for the closed instances *)

Definition flat_spectrum : nat → Byte.byte := λ _, Byte.x80.
Definition chunkA : Blob := mkBlob [Byte.x01; Byte.x02] "audio/webm".
Definition chunkB : Blob := mkBlob [Byte.x03] "audio/webm".
Definition chunk0 : Blob := mkBlob [] "audio/webm".

Definition okResponse : AudioApi.Response :=
  AudioApi.mkResponse 200 "OK" (mkBlob [Byte.x07; Byte.x08] "audio/mpeg").

Definition happyEnv : VoiceInterface.Env :=
  VoiceInterface.mkEnv None flat_spectrum [chunkA] (inr okResponse)
    VoiceInterface.Started.

(** A component that was never mounted (empty session id) and is recording. *)
Definition recordingUnmounted : VoiceInterface.App :=
  VoiceInterface.run [VoiceInterface.Toggle happyEnv]
    (VoiceInterface.initApp false ∅).

Definition notSupported : Thrown :=
  mkError "NotSupportedError" "The element has no supported sources.".

(** ** Proof automation: unfolding the monadic code one layer at a time *)

Ltac munfold :=
  unfold exec, zoom,
    Recorder.startRecording, Recorder.stopRecording, Recorder.onstop,
    Recorder.stillActive,
    Part002.startRecording, Part002.stopRecording, Part002.onstop,
    fire_dataavailable, fire_stop, fire_frame, recorder_fire_frame,
    analyzeAudio, ondataavailable, cancelCurrentFrame, closeCurrentContext,
    getUserMedia, newAudioContext, createAnalyser, closeContext, stopTracks,
    requestAnimationFrame, cancelAnimationFrame, consoleLog, newMediaRecorder,
    mr_start, mr_stop, newPromise, settle, promiseState,
    upd_recorder, getRecorder, upd_hook, upd_media,
    modify, gets, throw, suspend, try_catch, try_finally,
    mbind, M_bind, mret, M_ret in *.

Ltac mstep := munfold; simpl in *.
Ltac mcase := repeat (case_match; mstep; simplify_eq; simpl in *; try done).
Ltac mcrush := mstep; mcase; try done.

Ltac lookups :=
  repeat first
    [ rewrite list_lookup_alter_eq
    | rewrite (list_lookup_middle _ []) by done
    | rewrite list_lookup_insert_eq by (rewrite ?length_app; simpl; lia) ];
  simpl.

Ltac alter_cases :=
  repeat match goal with
  | H : alter _ _ _ !! _ = Some _ |- _ =>
      rewrite list_lookup_alter in H; case_decide; simplify_eq
  | H : _ <$> _ = Some _ |- _ =>
      apply fmap_Some in H as (? & ? & ?); simplify_eq
  | H : (_ ++ [_]) !! _ = Some _ |- _ =>
      apply lookup_snoc_Some in H as [[? ?]|[? ?]]; simplify_eq
  end; simpl in *.

Ltac aunfold :=
  unfold exec, zoom, VoiceInterface.inRecorder, VoiceInterface.inSession,
    VoiceInterface.inNetwork,
    VoiceInterface.onplay, VoiceInterface.onended, VoiceInterface.analyzePlayback,
    VoiceInterface.fire_ended, VoiceInterface.fire_error, VoiceInterface.fire_frame,
    VoiceInterface.createObjectURL, VoiceInterface.revokeObjectURL,
    VoiceInterface.newAudio, VoiceInterface.newAudioContext,
    VoiceInterface.createAnalyser, VoiceInterface.createMediaElementSource,
    VoiceInterface.connect, VoiceInterface.upd_audio,
    VoiceInterface.requestAnimationFrame, VoiceInterface.cancelAnimationFrame,
    VoiceInterface.toast, VoiceInterface.setIsProcessing,
    VoiceInterface.setIsPlaying, VoiceInterface.setPlaybackLevel,
    VoiceInterface.upd_ui, VoiceInterface.upd_dom,
    VoiceInterface.handleResetSession, Session.resetSession, Session.mountEffect,
    Session.setItem, Session.setSessionId, Session.getItem,
    AudioApi.sendAudioToAPI, AudioApi.fetch,
    consoleLog, upd_media,
    modify, gets, throw, suspend, try_catch, try_finally,
    mbind, M_bind, mret, M_ret in *.

Ltac astep := repeat (progress aunfold); simpl in *.
Ltac acase := repeat (case_match; astep; simplify_eq; simpl in *; try done).
Ltac acrush := astep; acase; try done.

(** ** Vocabulary of the further properties *)

(** [startRecording] of copy [I] gets past its guard in [w] (the second copy
    has none). *)
Definition startable (I : HookImpl) (w : World) : Prop :=
  I = Recorder.impl ∧ Recorder.stillActive w = false ∨ I = Part002.impl.

(** What a recording holds while it runs: the flag is up, an analyser is
    attached, the newest stream and the newest context are the recording's and
    are live, and exactly one animation frame request is pending, the one
    [animationFrameRef] names. *)
Definition resources_inv (ss cs : list bool) (w : World) : Prop :=
  isRecording (hook w) = true
  ∧ is_Some (analyserRef (hook w))
  ∧ audioContextRef (hook w) = Some (length cs)
  ∧ contexts (media w) = cs ++ [true]
  ∧ streams (media w) = ss ++ [true]
  ∧ ∃ f, animationFrameRef (hook w) = Some (S f)
         ∧ frames (media w) = [S f]
         ∧ S f < nextFrame (media w).

(** The world right after a granted [startRecording] whose first sample is
    [l]. *)
Definition started (l : Q) (w : World) : World :=
  let m := media w in
  mkWorld
    (mkHook true l (Some (length (recorders m))) []
            (Some (length (contexts m))) (Some (analysers m))
            (Some (nextFrame m)))
    (mkMedia
       (recorders m ++ [mkRecorder recording (length (streams m)) true None false])
       (streams m ++ [true]) (contexts m ++ [true]) (S (analysers m))
       (frames m ++ [nextFrame m]) (S (nextFrame m)) (promises m) (console m)
       (stopInactiveThrows m)).

(** The exposed level is a fraction. *)
Definition level_range (w : World) : Prop :=
  (0 <= audioLevel (hook w))%Q ∧ (audioLevel (hook w) <= 1)%Q.

(** The chunk buffer holds no empty fragment. *)
Definition buffer_nonempty (w : World) : Prop :=
  Forall (λ b, 0 < size b) (audioChunksRef (hook w)).

(** The flag is up exactly when a recorder is held. *)
Definition flag_inv (w : World) : Prop :=
  isRecording (hook w) = true ↔ is_Some (mediaRecorderRef (hook w)).

Definition notAllowed : Thrown :=
  mkError "NotAllowedError" "Permission denied".

(** What the component can do to its recorder hook: actions of the hook and
    console output. *)
Inductive rec_steps (w : World) : World → Prop :=
| rec_steps_refl : rec_steps w w
| rec_steps_act w' act :
    rec_steps w w' → rec_steps w (perform Recorder.impl act w')
| rec_steps_log w' msg :
    rec_steps w w' → rec_steps w (exec (consoleLog msg) w').

(** The request [sendAudioToAPI] builds. *)
Definition postOf (audioBlob : Blob) (sessionId : string) : AudioApi.Request :=
  AudioApi.mkRequest AudioApi.API_URL "POST" audioBlob "recording.webm" sessionId.

(** Invariants of the component. *)
Definition playback_range (a : VoiceInterface.App) : Prop :=
  (0 <= VoiceInterface.playbackLevel (VoiceInterface.ui a))%Q
  ∧ (VoiceInterface.playbackLevel (VoiceInterface.ui a) <= 1)%Q.

Definition graph_whole (a : VoiceInterface.App) : Prop :=
  VoiceInterface.graph a = VoiceInterface.pristine_graph
  ∨ VoiceInterface.graph a = VoiceInterface.built_graph.

Definition session_persisted (s : Session.SessionWorld) : Prop :=
  Session.sessionId s = ""
  ∨ Session.localStorage s !! Session.SESSION_KEY = Some (Session.sessionId s).

Definition requests_wellformed (rqs : list AudioApi.Request) : Prop :=
  Forall (λ rq, AudioApi.req_url rq = AudioApi.API_URL
                ∧ AudioApi.req_method rq = "POST"
                ∧ AudioApi.req_filename rq = "recording.webm"
                ∧ AudioApi.req_session rq ≠ "") rqs.



(** What a playback holds while it runs: the flag is up, the analyser is
    attached, the one audio element carries the object URL made for [blob] as
    its source and in its [onended] closure, that URL is live, and exactly one
    animation frame request is pending, the one [animationFrameRef] names. *)
Definition playing_inv (urls : list (Blob * bool)) (blob : Blob)
    (a : VoiceInterface.App) : Prop :=
  VoiceInterface.isPlaying (VoiceInterface.ui a) = true
  ∧ is_Some (VoiceInterface.analyserRef (VoiceInterface.ui a))
  ∧ VoiceInterface.audioElements (VoiceInterface.dom a)
    = [VoiceInterface.mkAudio (Some (length urls)) true (Some (length urls))]
  ∧ VoiceInterface.objectURLs (VoiceInterface.dom a) = urls ++ [(blob, true)]
  ∧ ∃ f, VoiceInterface.animationFrameRef (VoiceInterface.ui a) = Some (S f)
         ∧ VoiceInterface.rafQueue (VoiceInterface.dom a) = [S f]
         ∧ S f < VoiceInterface.rafNext (VoiceInterface.dom a).

(** Object URL [n], made for [b], is live and no [onended] closure can revoke
    it: every closure installed names a later URL. *)
Definition never_revoked (n : nat) (b : Blob) (d : VoiceInterface.Dom) : Prop :=
  VoiceInterface.objectURLs d !! n = Some (b, true)
  ∧ Forall (λ el, ∀ u, VoiceInterface.el_onended el = Some u → n < u)
           (VoiceInterface.audioElements d).

(** Recorder [i] is the only recorder whose [onstop] closure holds the
    [resolve] of promise [p]. *)
Definition sole_holder (i p : nat) (w : World) : Prop :=
  ∀ j r, recorders (media w) !! j = Some r → mr_onstop r = Some p → j = i.

(** Promise [p] is settled with [st]. *)
Definition settled (p : nat) (st : PromiseState) (w : World) : Prop :=
  promiseState p w = Some st ∧ st ≠ Pending.
(** * Properties *)

(** ** LevelMeter *)

Lemma byteZ_range b : (0 ≤ byteZ b ≤ 255)%Z.
Proof.
  unfold byteZ. pose proof (Byte.to_N_bounded b) as Hb.
  split; [apply N2Z.is_nonneg|]. change 255%Z with (Z.of_N 255). lia.
Qed.

Lemma fold_left_total rest acc :
  fold_left (λ acc b, (acc + byteZ b)%Z) rest acc = (acc + total rest)%Z.
Proof.
  revert acc. induction rest as [|b rest IH]; intros acc; simpl; [lia|].
  rewrite IH. lia.
Qed.

Lemma reduce_add_total a rest : reduce_add (a :: rest) = Some (total (a :: rest)).
Proof. simpl. by rewrite fold_left_total. Qed.

Lemma total_range dataArray :
  (0 ≤ total dataArray ≤ 255 * Z.of_nat (length dataArray))%Z.
Proof.
  induction dataArray as [|b rest IH]; simpl; [lia|].
  pose proof (byteZ_range b). lia.
Qed.

Lemma level_Some dataArray :
  dataArray ≠ [] → level dataArray = Some (mean dataArray / 255)%Q.
Proof.
  destruct dataArray as [|a rest]; [done|]. intros _.
  unfold level. by rewrite reduce_add_total.
Qed.

Lemma mean_range dataArray :
  dataArray ≠ [] → (0 <= mean dataArray / 255 ∧ mean dataArray / 255 <= 1)%Q.
Proof.
  intros Hne. pose proof (total_range dataArray) as [Hlo Hhi].
  assert (0 < Z.of_nat (length dataArray))%Z as Hlen.
  { destruct dataArray; [done|simpl; lia]. }
  unfold mean. set (t := total dataArray) in *.
  set (n := Z.of_nat (length dataArray)) in *.
  assert (0 < inject_Z n)%Q as Hn.
  { change (inject_Z 0 < inject_Z n)%Q. by rewrite <- Zlt_Qlt. }
  assert (inject_Z t / inject_Z n / 255 == inject_Z t / (255 * inject_Z n))%Q as ->.
  { field. intros H0. rewrite H0 in Hn. by apply Qlt_irrefl in Hn. }
  assert (0 < 255 * inject_Z n)%Q as Hd.
  { apply Qmult_lt_0_compat; [reflexivity|done]. }
  split.
  - apply Qle_shift_div_l; [done|]. rewrite Qmult_0_l.
    change (inject_Z 0 <= inject_Z t)%Q. by rewrite <- Zle_Qle.
  - apply Qle_shift_div_r; [done|]. rewrite Qmult_1_l.
    change 255%Q with (inject_Z 255). rewrite <- inject_Z_mult.
    by rewrite <- Zle_Qle.
Qed.

Lemma getByteFrequencyData_nonempty spectrum : getByteFrequencyData spectrum ≠ [].
Proof. done. Qed.
(** ** Recorder: stepping the embedding *)

(** The 128-bin vector and the blob constructor stay folded while the
    monadic code is unfolded. *)
#[local] Opaque level getByteFrequencyData newBlob.

Lemma analyzeAudio_detached spectrum w :
  analyserRef (hook w) = None → analyzeAudio spectrum w = (Normal tt, w).
Proof. intros H. unfold analyzeAudio. mstep. by rewrite H. Qed.

Lemma level_inv_step_rec a w : level_inv w → level_inv (perform Recorder.impl a w).
Proof.
  unfold level_inv. destruct w as [[] []]. destruct a; simpl; mcrush.
Qed.

Lemma level_inv_step_002 a w : level_inv w → level_inv (perform Part002.impl a w).
Proof.
  unfold level_inv. destruct w as [[] []]. destruct a; simpl; mcrush.
Qed.

Lemma run_snoc I acts a w : run I (acts ++ [a]) w = perform I a (run I acts w).
Proof. unfold run. by rewrite fold_left_app. Qed.

Lemma run_app I acts1 acts2 w : run I (acts1 ++ acts2) w = run I acts2 (run I acts1 w).
Proof. unfold run. by rewrite fold_left_app. Qed.

(** Induction over the runs of a hook. *)
Lemma reachable_ind I (P : World → Prop) :
  (∀ throws, P (initWorld throws)) →
  (∀ a w, P w → P (perform I a w)) →
  ∀ w, reachable I w → P w.
Proof.
  intros Hinit Hstep w (throws & acts & ->).
  induction acts as [|a acts IH] using rev_ind; [apply Hinit|].
  rewrite run_snoc. by apply Hstep.
Qed.

Lemma reachable_level_inv I w :
  I = Recorder.impl ∨ I = Part002.impl → reachable I w → level_inv w.
Proof.
  intros HI. apply reachable_ind.
  - done.
  - intros a w'. destruct HI as [-> | ->];
      [apply level_inv_step_rec | apply level_inv_step_002].
Qed.

Lemma ref_inv_step a w : ref_inv w → ref_inv (perform Recorder.impl a w).
Proof.
  unfold ref_inv. destruct w as [[] []]. destruct a; simpl; mcrush.
Qed.

Lemma reachable_ref_inv w : reachable Recorder.impl w → ref_inv w.
Proof. apply reachable_ind; [done|apply ref_inv_step]. Qed.

(** With no recorder held, [stopRecording] resolves its promise on the spot. *)
Lemma stop_without_recorder w :
  mediaRecorderRef (hook w) = None →
  Recorder.stopRecording w
  = (Normal (length (promises (media w))),
     mkWorld (hook w) (set_promises (promises (media w) ++ [Resolved emptyBlob]) (media w))).
Proof.
  intros H. destruct w as [[] []]; simpl in *; subst. mstep.
  rewrite lookup_app_r, Nat.sub_diag by done. simpl.
  rewrite insert_app_r_alt, Nat.sub_diag by done. done.
Qed.

(** The guard of src/hooks/useAudioRecorder.ts: while Capturing,
    [startRecording] only logs.  No stream is acquired; the chunk buffer, the
    recorders and the pending animation frames are untouched. *)
Lemma start_while_capturing device spectrum w :
  capturing w →
  Recorder.startRecording device spectrum w
  = (Normal tt,
     mkWorld (hook w)
       (set_console (console (media w) ++ ["Previous recording still active, waiting..."])
          (media w))).
Proof.
  intros (i & r & Href & Hrec & Hst). destruct w as [[] []]; simpl in *; subst.
  mstep. rewrite Hrec. rewrite Hst. done.
Qed.

(** *** One recording, step by step *)

Lemma start_records_rec spectrum w :
  Recorder.stillActive w = false →
  recording_inv (length (recorders (media w))) (length (streams (media w)))
    (length (promises (media w))) []
    (perform Recorder.impl (Start None spectrum) w).
Proof.
  intros Hidle. destruct w as [[] []]. simpl. unfold Recorder.startRecording.
  mstep. unfold Recorder.stillActive in Hidle. simpl in Hidle. rewrite Hidle.
  rewrite (level_Some _ (getByteFrequencyData_nonempty _)). simpl.
  unfold recording_inv. simpl. split_and!; try done. by lookups.
Qed.

Lemma start_records_002 spectrum w :
  recording_inv (length (recorders (media w))) (length (streams (media w)))
    (length (promises (media w))) []
    (perform Part002.impl (Start None spectrum) w).
Proof.
  destruct w as [[] []]. simpl. mstep.
  rewrite (level_Some _ (getByteFrequencyData_nonempty _)). simpl.
  unfold recording_inv. simpl. split_and!; try done. by lookups.
Qed.

Lemma deliver_recording I i s p cs d w :
  recording_inv i s p cs w →
  recording_inv i s p (cs ++ kept (fragments [d])) (perform I (deliver i d) w).
Proof.
  intros (Href & Hrec & Hp & Hcs). destruct w as [[] []]; simpl in *; subst.
  destruct d as [data|id spectrum]; simpl; mstep.
  - rewrite Hrec. simpl. unfold kept. rewrite filter_cons, filter_nil.
    destruct (Nat.ltb_spec 0 (size data)); simpl.
    + rewrite decide_True by done. done.
    + rewrite decide_False by lia. rewrite app_nil_r. done.
  - rewrite app_nil_r. mcase.
Qed.

Lemma deliveries_recording I i s p cs ds w :
  recording_inv i s p cs w →
  recording_inv i s p (cs ++ kept (fragments ds)) (run I (map (deliver i) ds) w).
Proof.
  revert cs w. induction ds as [|d ds IH]; intros cs w Hinv.
  - simpl. by rewrite app_nil_r.
  - apply (deliver_recording I _ _ _ _ d) in Hinv. apply IH in Hinv.
    replace (cs ++ kept (fragments (d :: ds)))
      with ((cs ++ kept (fragments [d])) ++ kept (fragments ds)); [exact Hinv|].
    rewrite <- app_assoc. f_equal. unfold kept. rewrite <- filter_app.
    f_equal. by destruct d.
Qed.

Lemma stop_flushes I i s p cs w :
  I = Recorder.impl ∨ I = Part002.impl →
  recording_inv i s p cs w → flushing_inv i s p cs (perform I Stop w).
Proof.
  intros HI (Href & Hrec & Hp & Hcs). destruct w as [[] []]; simpl in *; subst.
  destruct HI as [-> | ->]; simpl; mstep; lookups; rewrite Hrec; simpl;
    unfold flushing_inv; simpl; split_and!; try done; lookups;
    by rewrite ?Hrec.
Qed.

Lemma flush_fragment I i s p cs data w :
  flushing_inv i s p cs w →
  flushing_inv i s p (cs ++ kept [data]) (perform I (Data i data) w).
Proof.
  intros (Href & Hrec & Hp & Hcs). destruct w as [[] []]; simpl in *; subst.
  mstep. rewrite Hrec. simpl. unfold kept. rewrite filter_cons, filter_nil.
  destruct (Nat.ltb_spec 0 (size data)); simpl.
  - rewrite decide_True by done. done.
  - rewrite decide_False by lia. rewrite app_nil_r. done.
Qed.

Lemma flush_fragments I i s p cs flush w :
  flushing_inv i s p cs w →
  flushing_inv i s p (cs ++ kept flush) (run I (map (Data i) flush) w).
Proof.
  revert cs w. induction flush as [|d ds IH]; intros cs w Hinv.
  - simpl. by rewrite app_nil_r.
  - apply (flush_fragment I _ _ _ _ d) in Hinv. apply IH in Hinv.
    replace (cs ++ kept (d :: ds)) with ((cs ++ kept [d]) ++ kept ds); [exact Hinv|].
    rewrite <- app_assoc. f_equal. unfold kept. by rewrite <- filter_app.
Qed.

Lemma stopped_resolves I i s p cs w :
  I = Recorder.impl ∨ I = Part002.impl →
  flushing_inv i s p cs w →
  promiseState p (perform I (Stopped i) w) = Some (Resolved (newBlob cs "audio/webm")).
Proof.
  intros HI (Href & Hrec & Hp & Hcs). destruct w as [[] []]; simpl in *; subst.
  pose proof (lookup_lt_Some _ _ _ Hp) as Hlt.
  destruct HI as [-> | ->]; simpl; mstep; rewrite Hrec; simpl; mstep; lookups;
    rewrite ?Hrec; simpl; mcase; rewrite ?Hp; simpl;
    by rewrite list_lookup_insert_eq.
Qed.

Lemma kept_bytes cs :
  concat (map blob_bytes (kept cs)) = concat (map blob_bytes cs).
Proof.
  induction cs as [|c cs IH]; [done|]. unfold kept in *. rewrite filter_cons.
  case_decide; simpl; rewrite IH; [done|].
  unfold size in *. destruct (blob_bytes c); [done|simpl in *; lia].
Qed.

(** The whole session: the promise resolves with the fragments that passed
    the size test, in arrival order. *)
Lemma session_resolves I spectrum during flush w :
  I = Recorder.impl ∧ Recorder.stillActive w = false ∨ I = Part002.impl →
  let i := length (recorders (media w)) in
  let p := length (promises (media w)) in
  promiseState p (run I (recording_session i spectrum during flush) w)
  = Some (Resolved (newBlob (kept (fragments during ++ flush)) "audio/webm")).
Proof.
  intros HI i p. unfold recording_session.
  change (run I (Start None spectrum :: ?l) w)
    with (run I l (perform I (Start None spectrum) w)).
  rewrite run_app.
  change (run I (Stop :: ?l) ?w') with (run I l (perform I Stop w')).
  rewrite run_snoc.
  assert (I = Recorder.impl ∨ I = Part002.impl) as HI' by (destruct HI as [[-> _]| ->]; auto).
  assert (recording_inv i (length (streams (media w))) p []
            (perform I (Start None spectrum) w)) as Hinv.
  { destruct HI as [[-> Hidle]| ->];
      [by apply start_records_rec | apply start_records_002]. }
  apply (deliveries_recording I _ _ _ _ during) in Hinv.
  apply (stop_flushes I) in Hinv; [|done].
  apply (flush_fragments I _ _ _ _ flush) in Hinv.
  apply (stopped_resolves I) in Hinv; [|done].
  rewrite Hinv. unfold kept. by rewrite filter_app.
Qed.

(** *** Promises are only ever rejected by their own executor *)




(** *** A promise whose [resolve] no pending [stop] event holds *)

Lemma orphaned_step a p w :
  orphaned p w → orphaned p (perform Part002.impl a w).
Proof.
  intros [Hp Hrec]. pose proof (lookup_lt_Some _ _ _ Hp) as Hlt.
  unfold orphaned. destruct w as [[] []]; simpl in *.
  destruct a; simpl; mcrush.
  all: split; [try done|].
  all: try (intros j r Hj Hq; alter_cases; try done; try (by eapply Hrec);
            try (intros [= ?]; lia)).
  all: try (rewrite lookup_app_l by lia; done).
  all: try (rewrite list_lookup_insert_ne by lia; rewrite lookup_app_l by lia; done).
  all: try (rewrite list_lookup_insert_ne; [done|]; intros ->;
            match goal with
            | H : _ !! _ = Some ?m, Hq : mr_stopQueued ?m = true |- _ =>
                by apply (Hrec _ _ H Hq)
            end).
Qed.

Lemma orphaned_run acts p w :
  orphaned p w → orphaned p (run Part002.impl acts w).
Proof.
  revert w. induction acts as [|a acts IH]; intros w Hw; [done|].
  simpl. apply IH. by apply orphaned_step.
Qed.

(** ** VoiceInterface: stepping the embedding *)

Section VoiceInterfaceFacts.
Import VoiceInterface.

(** *** Awaiting [stopRecording] while Capturing *)

Lemma fire_dataavailable_normal i data w :
  fire_dataavailable i data w = (Normal tt, exec (fire_dataavailable i data) w).
Proof. destruct w as [[] []]. mcrush. Qed.

Lemma fire_dataavailable_stopping i p data w :
  stopping i p w → stopping i p (exec (fire_dataavailable i data) w).
Proof.
  intros (r & Hrec & Hon & Hq & Hp). unfold stopping.
  destruct w as [[] []]; simpl in *. mstep. rewrite Hrec. simpl. mcase; eauto.
Qed.

Lemma flush_then_stop i p flush w :
  stopping i p w →
  ∃ b w',
    foldr (λ data k, fire_dataavailable i data;; k)
          (fire_stop Recorder.impl i) flush w = (Normal tt, w')
    ∧ promises (media w') !! p = Some (Resolved b)
    ∧ isRecording (hook w') = false.
Proof.
  revert w. induction flush as [|data flush IH]; intros w Hst.
  - destruct Hst as (r & Hrec & Hon & Hq & Hp).
    pose proof (lookup_lt_Some _ _ _ Hp) as Hlt.
    destruct w as [[] []]; simpl in *. mstep. rewrite Hrec. simpl. rewrite Hq, Hon.
    mstep. lookups. rewrite Hrec. simpl. mcase; rewrite ?Hp; simpl;
      eexists _, _; (split_and!; [done| |done]); simpl;
      by rewrite list_lookup_insert_eq.
  - simpl. unfold mbind at 1, M_bind at 1. rewrite fire_dataavailable_normal.
    apply IH. by apply fire_dataavailable_stopping.
Qed.

Lemma stop_capturing w :
  capturing w →
  ∃ i w1,
    mediaRecorderRef (hook w) = Some i
    ∧ Recorder.stopRecording w = (Normal (length (promises (media w))), w1)
    ∧ stopping i (length (promises (media w))) w1.
Proof.
  intros (i & r & Href & Hrec & Hst). exists i.
  destruct w as [[] []]; simpl in *; subst. mstep. lookups. rewrite Hrec. simpl.
  rewrite Hst. simpl. eexists. split_and!; [done..|].
  unfold stopping. simpl. lookups. rewrite Hrec. simpl.
  eexists. split_and!; [done..|]. by lookups.
Qed.

Lemma await_capturing flush w :
  capturing w →
  ∃ blob w',
    VoiceInterface.awaitStopRecording flush w = (Normal blob, w')
    ∧ isRecording (hook w') = false.
Proof.
  intros Hc. destruct (stop_capturing w Hc) as (i & w1 & Href & Hstop & Hst).
  destruct (flush_then_stop i _ flush w1 Hst) as (b & w' & Hrun & Hp & Hrec).
  exists b, w'. split; [|done].
  unfold VoiceInterface.awaitStopRecording.
  unfold mbind at 1, M_bind at 1. unfold gets at 1. rewrite Href.
  unfold mbind at 1, M_bind at 1. rewrite Hstop.
  unfold mbind at 1, M_bind at 1. rewrite Hrun.
  mstep. by rewrite Hp.
Qed.

(** What one [playAudioResponse] can and cannot do. *)
Lemma play_spec audioBlob outcome spectrum a :
  ∃ a',
    playAudioResponse audioBlob outcome spectrum a = (Normal tt, a')
    ∧ sess a' = sess a
    ∧ requests a' = requests a
    ∧ hook (recw a') = hook (recw a)
    ∧ isProcessing (ui a') = isProcessing (ui a)
    ∧ (isPlaying (ui a') = true → isPlaying (ui a) = true ∨ outcome = Started)
    ∧ (playback_level_inv a → playback_level_inv a')
    ∧ (graph_complete a → graph a' = graph a).
Proof.
  unfold playback_level_inv, graph_complete, graph.
  destruct a as [[h m] s [] [] rq]. unfold playAudioResponse, play.
  acrush; eexists; (split; [done|]); simpl; split_and!; try done; auto.
  all: try (intros ([? ?] & [? ?] & [? ?] & [? ?]); simplify_eq).
  all: try (by rewrite length_alter).
  all: intros; congruence.
Qed.

(** C8, amended.  Whenever [audio.play()] rejects (the call is refused
    outright, or the [play] event has fired and the source then fails to
    decode), [playAudioResponse] itself completes normally: the exception is
    caught, the Playing flag is false, the exposed level is exactly 0 and a
    Playback Error toast has been added. *)
Theorem playback_start_error_is_handled audioBlob outcome spectrum e a :
  outcome = Refused e ∨ outcome = Undecodable e →
  ∃ a',
    playAudioResponse audioBlob outcome spectrum a = (Normal tt, a')
    ∧ isPlaying (ui a') = false
    ∧ playbackLevel (ui a') = 0%Q
    ∧ toasts (dom a') = toasts (dom a) ++ [playbackErrorToast].
Proof.
  intros Hout. destruct a as [w s [] [] rq]. unfold playAudioResponse, play.
  destruct Hout as [-> | ->]; acrush; eexists; split_and!; done.
Qed.

Lemma toggle_when_recording env a :
  isRecording (hook (recw a)) = true →
  handleToggleRecording env a
  = (setIsProcessing true;;
     try_finally
       (try_catch
          (audioBlob ← inRecorder (awaitStopRecording (flush env));
           sessionId ← gets (λ a, Session.sessionId (sess a));
           if decide (sessionId = "") then
             toast sessionErrorToast;;
             setIsProcessing false
           else
             responseBlob ←
               inNetwork (AudioApi.sendAudioToAPI audioBlob sessionId (answer env));
             playAudioResponse responseBlob (outcome env) (spectrum env))
          (λ error,
             inRecorder (consoleLog "Error processing audio:");;
             toast (errorToast error)))
       (setIsProcessing false)) a.
Proof.
  intros H. unfold handleToggleRecording.
  unfold mbind at 1. unfold M_bind at 1. unfold gets at 1. by rewrite H.
Qed.

Lemma toggle_when_idle env a :
  isRecording (hook (recw a)) = false →
  handleToggleRecording env a
  = try_catch
      (inRecorder (Recorder.startRecording (device env) (spectrum env));;
       toast recordingStartedToast)
      (λ error,
         inRecorder (consoleLog "Error starting recording:");;
         toast recordingErrorToast) a.
Proof.
  intros H. unfold handleToggleRecording.
  unfold mbind at 1. unfold M_bind at 1. unfold gets at 1. by rewrite H.
Qed.

Ltac use_play_spec :=
  match goal with
  | |- context [playAudioResponse ?b ?o ?s ?x] =>
      let a' := fresh "a'" in
      let Hplay := fresh "Hplay" in
      destruct (play_spec b o s x)
        as (a' & Hplay & Hsess & Hreq & Hhook & Hproc & Hplaying & Hlevel & Hgraph);
      rewrite Hplay; destruct a'; simpl in *
  end.

(** C7 (a toggle that stops a recording).  Take a component whose recorder is
    Capturing.  [handleToggleRecording] completes, the recorder is Idle again
    and the processing flag is down.  If the session id is empty, the only new
    toast is the Session Error, nothing is submitted to the remote exchange
    and the playing flag is what it was.  If the session id is non-empty,
    exactly one request is submitted: the POST of the recorded blob (the value
    [stopRecording] resolved with) and the session id; and the playing flag
    can only have gone up if the exchange answered with an ok response and
    playback started. *)
Theorem toggle_stop_requires_session env a :
  isRecording (hook (recw a)) = true →
  capturing (recw a) →
  ∃ blob a',
    (awaitStopRecording (flush env) (recw a)).1 = Normal blob
    ∧ handleToggleRecording env a = (Normal tt, a')
    ∧ isProcessing (ui a') = false
    ∧ isRecording (hook (recw a')) = false
    ∧ (Session.sessionId (sess a) = "" →
         toasts (dom a') = toasts (dom a) ++ [sessionErrorToast]
         ∧ requests a' = requests a
         ∧ isPlaying (ui a') = isPlaying (ui a))
    ∧ (Session.sessionId (sess a) ≠ "" →
         requests a'
         = requests a
             ++ [AudioApi.mkRequest AudioApi.API_URL "POST" blob "recording.webm"
                   (Session.sessionId (sess a))]
         ∧ (isPlaying (ui a') = true →
              isPlaying (ui a) = true
              ∨ ∃ r, answer env = inr r ∧ AudioApi.ok r = true
                     ∧ outcome env = Started)).
Proof.
  intros Hrec Hcap.
  destruct (await_capturing (flush env) _ Hcap) as (blob & w' & Hawait & Hidle).
  rewrite toggle_when_recording by done.
  destruct a as [w ss u d rq]; simpl in *. exists blob.
  astep. rewrite Hawait. simpl.
  destruct (decide (Session.sessionId ss = "")) as [Hempty|Hsid]; simpl.
  - eexists. split_and!; try done.
  - destruct (answer env) as [e|r] eqn:Hans; simpl.
    + eexists. split_and!; try done. intros _. split; [done|]. simpl. auto.
    + destruct (AudioApi.ok r) eqn:Hok; simpl.
      * use_play_spec. eexists. split; [done|]. split; [done|].
        split_and!; simpl; try done; try congruence.
        intros _. split; [done|].
        intros Hp. destruct (Hplaying Hp) as [?| ->]; eauto.
      * eexists. split_and!; try done. intros _. split; [done|]. simpl. auto.
Qed.

Lemma built_graph_complete a : graph a = built_graph → graph_complete a.
Proof.
  unfold graph, built_graph, graph_complete. intros H. simplify_eq.
  repeat match goal with H : _ = Some _ |- _ => rewrite H end. eauto.
Qed.

Lemma first_play_builds audioBlob outcome spectrum a :
  graph a = pristine_graph →
  graph (perform (Play audioBlob outcome spectrum) a) = built_graph.
Proof.
  unfold graph, pristine_graph, built_graph. intros H.
  destruct a as [w s [] [] rq]; simpl in *. simplify_eq.
  destruct audioElements0; [|done]. simpl.
  unfold playAudioResponse, play. acrush.
Qed.

Lemma toggle_playback_spec env a :
  let a' := exec (handleToggleRecording env) a in
  (playback_level_inv a → playback_level_inv a')
  ∧ (graph_complete a → graph a' = graph a).
Proof.
  simpl. unfold exec. destruct (isRecording (hook (recw a))) eqn:Hrec.
  - rewrite toggle_when_recording by done.
    destruct a as [w ss u d rq]; simpl in *. astep.
    destruct (awaitStopRecording (flush env) w) as [[blob|e|] w']; simpl;
      try done.
    destruct (decide (Session.sessionId ss = "")); simpl; [done|].
    destruct (answer env) as [e|r]; simpl; [done|].
    destruct (AudioApi.ok r); simpl; [|done].
    use_play_spec. split; [apply Hlevel|apply Hgraph].
  - rewrite toggle_when_idle by done.
    destruct a as [w ss u d rq]; simpl in *. astep.
    destruct (Recorder.startRecording (device env) (spectrum env) w)
      as [[[]|e|] w']; simpl; done.
Qed.

Lemma graph_complete_stable act a :
  graph_complete a → graph (perform act a) = graph a.
Proof.
  intros Hc.
  destruct act as [now r|env|now r|blob out sp|audio|audio|id sp|id sp]; simpl.
  - destruct a as [w ss [] [] rq]. unfold graph. acrush.
  - by apply toggle_playback_spec.
  - destruct a as [w ss [] [] rq]. unfold graph. acrush.
  - unfold exec. destruct (play_spec blob out sp a) as (a' & -> & H).
    simpl. by apply H.
  - destruct a as [w ss [] [] rq]. unfold graph. acrush.
  - done.
  - destruct a as [w ss [] [] rq]. unfold graph. acrush.
  - destruct a as [w ss [] [] rq]. unfold graph. acrush.
Qed.

Lemma built_graph_stable acts a :
  graph a = built_graph → graph (VoiceInterface.run acts a) = built_graph.
Proof.
  revert a. induction acts as [|act acts IH]; intros a Ha; [done|].
  simpl. apply IH. rewrite graph_complete_stable; [done|].
  by apply built_graph_complete.
Qed.

Lemma playback_level_inv_step act a :
  playback_level_inv a → playback_level_inv (perform act a).
Proof.
  destruct act as [now r|env|now r|blob out sp|audio|audio|id sp|id sp]; simpl.
  - unfold playback_level_inv. destruct a as [w ss [] [] rq]. acrush.
  - apply toggle_playback_spec.
  - unfold playback_level_inv. destruct a as [w ss [] [] rq]. acrush.
  - unfold exec. destruct (play_spec blob out sp a) as (a' & -> & H).
    simpl. apply H.
  - unfold playback_level_inv. destruct a as [w ss [] [] rq]. acrush.
  - done.
  - unfold playback_level_inv. destruct a as [w ss [] [] rq]. acrush.
  - unfold playback_level_inv. destruct a as [w ss [] [] rq]. acrush.
Qed.

Lemma reachable_playback_level_inv a :
  VoiceInterface.reachable a → playback_level_inv a.
Proof.
  intros (throws & stored & acts & ->).
  induction acts as [|act acts IH] using rev_ind; [done|].
  unfold VoiceInterface.run. rewrite fold_left_app. simpl.
  by apply playback_level_inv_step.
Qed.

End VoiceInterfaceFacts.

(** ** Session *)

(** The decimal rendering of the clock reading contains no underscore, so the
    first underscore after the prefix splits an id into its two parts. *)
Lemma pretty_N_go_no_sep x s : no_sep s → no_sep (pretty_N_go x s).
Proof.
  revert s. induction (N.lt_wf_0 x) as [x _ IH]; intros s Hs.
  assert (x = 0 ∨ 0 < x)%N as [->|Hpos] by lia.
  - by rewrite pretty_N_go_0.
  - rewrite pretty_N_go_step by done. apply IH.
    + by apply N.div_lt.
    + split; [|done]. unfold pretty_N_char. by repeat case_match.
Qed.

Lemma pretty_N_no_sep (n : N) : no_sep (pretty n).
Proof.
  unfold pretty, pretty_N. case_decide; [by split|].
  by apply pretty_N_go_no_sep.
Qed.

Lemma sep_split s1 s2 r1 r2 :
  no_sep s1 → no_sep s2 →
  s1 +:+ "_" +:+ r1 = s2 +:+ "_" +:+ r2 → s1 = s2 ∧ r1 = r2.
Proof.
  revert s2. induction s1 as [|c s1 IH]; intros [|c' s2]; simpl.
  - intros _ _ H. by simplify_eq.
  - intros _ [Hc _] H. by simplify_eq.
  - intros [Hc _] _ H. by simplify_eq.
  - intros [_ H1] [_ H2] H. simplify_eq.
    destruct (IH s2 H1 H2) as [-> ->]; done.
Qed.

Lemma generateSessionId_inj now1 r1 now2 r2 :
  Session.generateSessionId now1 r1 = Session.generateSessionId now2 r2 ↔
  now1 = now2 ∧ String.substring 2 9 r1 = String.substring 2 9 r2.
Proof.
  unfold Session.generateSessionId. split.
  - intros Heq. simpl in Heq. simplify_eq.
    apply sep_split in Heq as [Hn Hr]; [|apply pretty_N_no_sep..].
    split; [|done]. by apply (inj pretty).
  - intros [-> ->]. done.
Qed.

(** * The claims *)

(** ** Recorder *)

(** C1 (round trip of a recording).  Start from any world in which the guard
    of [startRecording] lets the call through (for the second copy: any
    world), let the device grant a stream, let fragments and animation frames
    arrive, call [stopRecording], let the recorder flush and fire [stop].  The
    promise returned by [stopRecording] is then resolved with a blob whose
    bytes are the bytes of every fragment delivered between start and stop,
    concatenated in arrival order, and whose size is the sum of their sizes. *)
Theorem recording_round_trip (I : HookImpl) spectrum during flush w :
  I = Recorder.impl ∧ Recorder.stillActive w = false ∨ I = Part002.impl →
  let i := length (recorders (media w)) in
  let p := length (promises (media w)) in
  let delivered := fragments during ++ flush in
  ∃ blob,
    promiseState p (run I (recording_session i spectrum during flush) w)
    = Some (Resolved blob)
    ∧ blob_bytes blob = concat (map blob_bytes delivered)
    ∧ size blob = sum_list (map size delivered).
Proof.
  intros HI i p delivered. exists (newBlob (kept delivered) "audio/webm").
  split; [by apply session_resolves|].
  assert (blob_bytes (newBlob (kept delivered) "audio/webm")
          = concat (map blob_bytes delivered)) as Hbytes.
  { transitivity (concat (map blob_bytes (kept delivered))); [done|].
    apply kept_bytes. }
  split; [done|]. unfold size at 1. rewrite Hbytes.
  clear. induction delivered as [|c cs IH]; [done|].
  simpl. rewrite length_app, IH. done.
Qed.

Lemma recording_round_trip_witness :
  ∃ blob,
    promiseState 0
      (run Recorder.impl
         (recording_session 0 flat_spectrum
            [Fragment chunkA; Tick 1 flat_spectrum; Fragment chunk0] [chunkB])
         (initWorld false))
    = Some (Resolved blob)
    ∧ blob_bytes blob = [Byte.x01; Byte.x02; Byte.x03]
    ∧ size blob = 3.
Proof.
  exact (recording_round_trip Recorder.impl flat_spectrum
           [Fragment chunkA; Tick 1 flat_spectrum; Fragment chunk0] [chunkB]
           (initWorld false) (or_introl (conj eq_refl eq_refl))).
Defined.

(** C2 (start while Capturing), on the second copy of the hook, which has no
    guard: after one [startRecording] and one delivered fragment the hook is
    Capturing with that fragment buffered, one stream and one sampling loop; a
    second [startRecording] acquires a second stream, empties the buffer of the
    recording in flight, starts a second sampling loop and leaves two recorders
    recording. *)
Theorem part002_start_while_capturing :
  let w := run Part002.impl [Start None flat_spectrum; Data 0 chunkA]
             (initWorld false) in
  let w' := exec (Part002.startRecording None flat_spectrum) w in
  capturing w
  ∧ audioChunksRef (hook w) = [chunkA]
  ∧ streams (media w) = [true]
  ∧ frames (media w) = [1]
  ∧ audioChunksRef (hook w') = []
  ∧ streams (media w') = [true; true]
  ∧ frames (media w') = [1; 2]
  ∧ mediaRecorderRef (hook w') = Some 1
  ∧ mr_state <$> recorders (media w') = [recording; recording].
Proof.
  split_and!; try (vm_compute; reflexivity).
  eexists 0, _. split_and!; vm_compute; reflexivity.
Qed.

(** In src/hooks/useAudioRecorder.ts an Idle hook holds no recorder, so
    [stopRecording] resolves at once with the empty blob. *)
Lemma stop_while_idle_resolves_empty w :
  reachable Recorder.impl w → idle w →
  ∃ w',
    Recorder.stopRecording w = (Normal (length (promises (media w))), w')
    ∧ promiseState (length (promises (media w))) w' = Some (Resolved emptyBlob)
    ∧ size emptyBlob = 0.
Proof.
  intros Hreach Hidle. pose proof (reachable_ref_inv w Hreach Hidle) as Href.
  rewrite (stop_without_recorder w Href). eexists. split; [done|].
  split; [|done]. unfold promiseState. simpl. by apply list_lookup_middle.
Qed.

(** C3 (stop while Idle), on the second copy of the hook, after a recording
    has completed.  The hook reports Idle and the first promise is resolved
    with the recording, but [mediaRecorderRef] still holds the finished
    recorder; a further [stopRecording] installs [onstop] on it and calls
    [stop()] on an inactive recorder.  On a user agent that throws there the
    promise is rejected; on one that returns, the promise is pending and stays
    pending whatever happens next.  Before the first recording the same call
    resolves with the empty blob. *)
Theorem part002_stop_while_idle_after_recording throws :
  let w := run Part002.impl
             [Start None flat_spectrum; Stop; Data 0 chunkA; Stopped 0]
             (initWorld throws) in
  let w' := exec Part002.stopRecording w in
  idle w
  ∧ promiseState 0 w = Some (Resolved chunkA)
  ∧ promiseState 1 w'
    = Some (if throws then Rejected invalidState else Pending)
  ∧ (throws = false →
     ∀ acts, promiseState 1 (run Part002.impl acts w') = Some Pending)
  ∧ promiseState 0 (exec Part002.stopRecording (initWorld throws))
    = Some (Resolved emptyBlob).
Proof.
  split_and!.
  1-3, 5: destruct throws; vm_compute; reflexivity.
  intros -> acts.
  assert (orphaned 1
            (exec Part002.stopRecording
               (run Part002.impl
                  [Start None flat_spectrum; Stop; Data 0 chunkA; Stopped 0]
                  (initWorld false)))) as Horph.
  { split; [vm_compute; reflexivity|].
    intros [|[|j]] r; vm_compute; intros; simplify_eq. }
  by destruct (orphaned_run acts _ _ Horph).
Qed.




(** ** LevelMeter *)

(** C4 (the sampled level).  For every non-empty vector of 8-bit bins the
    level is the arithmetic mean of the bins divided by 255 and lies in
    [0, 1].  A sample taken with an analyser attached exposes exactly that
    value for the analyser's vector, in the recorder ([analyzeAudio]) and in
    playback ([analyzePlayback]); with no analyser attached the sample changes
    nothing and the exposed level is 0, in every reachable world of either
    copy of the hook and of the component. *)
Theorem level_meter_sample :
  (∀ dataArray, dataArray ≠ [] →
     ∃ l, level dataArray = Some l
          ∧ (l == mean dataArray / 255)%Q ∧ (0 <= l)%Q ∧ (l <= 1)%Q)
  ∧ (∀ spectrum w, is_Some (analyserRef (hook w)) →
       level (getByteFrequencyData spectrum)
       = Some (audioLevel (hook (exec (analyzeAudio spectrum) w))))
  ∧ (∀ I spectrum w,
       I = Recorder.impl ∨ I = Part002.impl → reachable I w →
       analyserRef (hook w) = None →
       audioLevel (hook (exec (analyzeAudio spectrum) w)) = 0%Q)
  ∧ (∀ spectrum a, is_Some (VoiceInterface.analyserRef (VoiceInterface.ui a)) →
       level (getByteFrequencyData spectrum)
       = Some (VoiceInterface.playbackLevel
                 (VoiceInterface.ui
                    (exec (VoiceInterface.analyzePlayback spectrum) a))))
  ∧ (∀ spectrum a,
       VoiceInterface.reachable a →
       VoiceInterface.analyserRef (VoiceInterface.ui a) = None →
       VoiceInterface.playbackLevel
         (VoiceInterface.ui (exec (VoiceInterface.analyzePlayback spectrum) a))
       = 0%Q).
Proof.
  split_and!.
  - intros dataArray Hne. exists (mean dataArray / 255)%Q.
    split; [by apply level_Some|]. split; [reflexivity|]. by apply mean_range.
  - intros spectrum w [n Hn]. destruct w as [[] []]; simpl in *; subst. mstep.
    rewrite (level_Some _ (getByteFrequencyData_nonempty spectrum)). done.
  - intros I spectrum w HI Hreach Hnone.
    pose proof (reachable_level_inv I w HI Hreach Hnone) as Hzero.
    unfold exec. by rewrite analyzeAudio_detached.
  - intros spectrum a [n Hn]. destruct a as [w s [] [] rq]; simpl in *; subst.
    astep. rewrite (level_Some _ (getByteFrequencyData_nonempty spectrum)). done.
  - intros spectrum a Hreach Hnone.
    pose proof (reachable_playback_level_inv a Hreach Hnone) as Hzero.
    destruct a as [w s [] [] rq]; simpl in *; subst. by astep.
Qed.

Lemma level_meter_sample_witness :
  ∃ l, level [Byte.xff; Byte.x00; Byte.x80] = Some l
       ∧ (l == mean [Byte.xff; Byte.x00; Byte.x80] / 255)%Q
       ∧ (0 <= l)%Q ∧ (l <= 1)%Q.
Proof.
  apply (proj1 level_meter_sample [Byte.xff; Byte.x00; Byte.x80]).
  discriminate.
Defined.

(** ** The remote exchange *)

(** C5 as stated fails: a response with status 201 is returned as the audio
    blob, because the code tests [response.ok], not [status === 200]. *)
Lemma status_201_is_returned :
  ¬ (∀ audioBlob sessionId (r : AudioApi.Response) sent,
       (AudioApi.sendAudioToAPI audioBlob sessionId (inr r) sent).1
       = Normal (AudioApi.body r)
       ↔ AudioApi.status r = 200%nat).
Proof.
  intros H.
  specialize (H chunkA "s" (AudioApi.mkResponse 201 "Created" chunkB) []).
  destruct H as [H _]. by specialize (H eq_refl).
Qed.

(** C5, amended.  For every response, [sendAudioToAPI] posts the recording and
    the session id to the endpoint and returns the response body exactly when
    the status is in 200..299; for any other status it throws an Error whose
    message carries the response's status text. *)
Theorem sendAudioToAPI_returns_body_iff_ok audioBlob sessionId
    (r : AudioApi.Response) sent :
  AudioApi.sendAudioToAPI audioBlob sessionId (inr r) sent
  = (if AudioApi.ok r then Normal (AudioApi.body r)
     else Throw (mkError "Error"
                   ("API request failed: " +:+ AudioApi.statusText r)),
     sent ++ [AudioApi.mkRequest AudioApi.API_URL "POST" audioBlob
                "recording.webm" sessionId])
  ∧ (AudioApi.ok r = true ↔ (200 ≤ AudioApi.status r ≤ 299)%nat).
Proof.
  split.
  - astep. by destruct (AudioApi.ok r).
  - unfold AudioApi.ok. rewrite andb_true_iff, !Nat.leb_le. done.
Qed.

(** ** Playback *)

(** C6 (the playback graph is built once).  From any state in which nothing
    of the graph exists, the first [playAudioResponse] builds the whole graph
    (one element, one context, one analyser, one element source, the edges
    source -> analyser -> destination), however [audio.play()] turns out; and
    after any further actions (more plays, toggles that play, ended and error
    events, frames, resets) the refs and every constructed object and edge are
    still exactly those: nothing is constructed a second time. *)
Theorem playback_graph_built_once audioBlob outcome spectrum rest a :
  VoiceInterface.graph a = VoiceInterface.pristine_graph →
  let a1 := VoiceInterface.perform
              (VoiceInterface.Play audioBlob outcome spectrum) a in
  VoiceInterface.graph a1 = VoiceInterface.built_graph
  ∧ VoiceInterface.graph (VoiceInterface.run rest a1)
    = VoiceInterface.built_graph.
Proof.
  intros Ha a1.
  assert (VoiceInterface.graph a1 = VoiceInterface.built_graph) as H1
    by by apply first_play_builds.
  split; [done|]. by apply built_graph_stable.
Qed.

Lemma playback_graph_built_once_witness :
  let a1 := VoiceInterface.perform
              (VoiceInterface.Play chunkB VoiceInterface.Started flat_spectrum)
              (VoiceInterface.initApp false ∅) in
  VoiceInterface.graph a1 = VoiceInterface.built_graph
  ∧ VoiceInterface.graph
      (VoiceInterface.run
         [VoiceInterface.Ended 0;
          VoiceInterface.Play chunkA (VoiceInterface.Refused invalidState)
            flat_spectrum;
          VoiceInterface.Mount 1700000000000 "0.4fzyo82mvyr";
          VoiceInterface.Toggle happyEnv; VoiceInterface.Toggle happyEnv]
         a1)
    = VoiceInterface.built_graph.
Proof.
  exact (playback_graph_built_once chunkB VoiceInterface.Started flat_spectrum
           [VoiceInterface.Ended 0;
            VoiceInterface.Play chunkA (VoiceInterface.Refused invalidState)
              flat_spectrum;
            VoiceInterface.Mount 1700000000000 "0.4fzyo82mvyr";
            VoiceInterface.Toggle happyEnv; VoiceInterface.Toggle happyEnv]
           (VoiceInterface.initApp false ∅) eq_refl).
Defined.

(** ** The orchestrator *)

Lemma recordingUnmounted_capturing :
  capturing (VoiceInterface.recw recordingUnmounted).
Proof. eexists 0, _. split_and!; vm_compute; reflexivity. Defined.

Lemma toggle_stop_requires_session_witness :
  ∃ blob a',
    (VoiceInterface.awaitStopRecording [chunkA]
       (VoiceInterface.recw recordingUnmounted)).1 = Normal blob
    ∧ VoiceInterface.handleToggleRecording happyEnv recordingUnmounted
      = (Normal tt, a')
    ∧ VoiceInterface.isProcessing (VoiceInterface.ui a') = false
    ∧ isRecording (hook (VoiceInterface.recw a')) = false
    ∧ (Session.sessionId (VoiceInterface.sess recordingUnmounted) = "" →
         VoiceInterface.toasts (VoiceInterface.dom a')
         = VoiceInterface.toasts (VoiceInterface.dom recordingUnmounted)
             ++ [VoiceInterface.sessionErrorToast]
         ∧ VoiceInterface.requests a' = VoiceInterface.requests recordingUnmounted
         ∧ VoiceInterface.isPlaying (VoiceInterface.ui a')
           = VoiceInterface.isPlaying (VoiceInterface.ui recordingUnmounted))
    ∧ (Session.sessionId (VoiceInterface.sess recordingUnmounted) ≠ "" →
         VoiceInterface.requests a'
         = VoiceInterface.requests recordingUnmounted
             ++ [AudioApi.mkRequest AudioApi.API_URL "POST" blob "recording.webm"
                   (Session.sessionId (VoiceInterface.sess recordingUnmounted))]
         ∧ (VoiceInterface.isPlaying (VoiceInterface.ui a') = true →
              VoiceInterface.isPlaying (VoiceInterface.ui recordingUnmounted)
              = true
              ∨ ∃ r, VoiceInterface.answer happyEnv = inr r
                     ∧ AudioApi.ok r = true
                     ∧ VoiceInterface.outcome happyEnv = VoiceInterface.Started)).
Proof.
  exact (toggle_stop_requires_session happyEnv recordingUnmounted eq_refl
           recordingUnmounted_capturing).
Defined.

(** C8 as stated fails for errors after playback has begun: the audio element
    has no [error] handler, so when the event fires on a playing element the
    component stays Playing and shows nothing. *)
Lemma error_after_start_goes_unhandled :
  ¬ (∀ a audio,
       VoiceInterface.reachable a →
       VoiceInterface.isPlaying (VoiceInterface.ui a) = true →
       let a' := VoiceInterface.perform (VoiceInterface.ErrorEvent audio) a in
       VoiceInterface.isPlaying (VoiceInterface.ui a') = false
       ∧ VoiceInterface.playbackLevel (VoiceInterface.ui a') = 0%Q
       ∧ VoiceInterface.playbackErrorToast
           ∈ VoiceInterface.toasts (VoiceInterface.dom a')).
Proof.
  intros H.
  specialize (H (VoiceInterface.run
                   [VoiceInterface.Play chunkB VoiceInterface.Started
                      flat_spectrum]
                   (VoiceInterface.initApp false ∅)) 0).
  destruct H as [H _]; [by eexists false, ∅, _|reflexivity|].
  vm_compute in H. discriminate.
Qed.

Lemma playback_start_error_is_handled_witness :
  ∃ a',
    VoiceInterface.playAudioResponse chunkB
      (VoiceInterface.Undecodable notSupported) flat_spectrum
      (VoiceInterface.initApp false ∅)
    = (Normal tt, a')
    ∧ VoiceInterface.isPlaying (VoiceInterface.ui a') = false
    ∧ VoiceInterface.playbackLevel (VoiceInterface.ui a') = 0%Q
    ∧ VoiceInterface.toasts (VoiceInterface.dom a')
      = VoiceInterface.toasts (VoiceInterface.dom (VoiceInterface.initApp false ∅))
          ++ [VoiceInterface.playbackErrorToast].
Proof.
  exact (playback_start_error_is_handled chunkB
           (VoiceInterface.Undecodable notSupported) flat_spectrum notSupported
           (VoiceInterface.initApp false ∅) (or_intror eq_refl)).
Defined.

(** ** Session *)

(** C9 as stated fails: two resets that read the same clock millisecond and
    draw the same random fragment generate the same session id. *)
Lemma resets_in_one_millisecond_can_collide :
  ¬ (∀ a now1 random1 now2 random2,
       let a1 := exec (VoiceInterface.handleResetSession now1 random1) a in
       let a2 := exec (VoiceInterface.handleResetSession now2 random2) a1 in
       Session.sessionId (VoiceInterface.sess a1)
       ≠ Session.sessionId (VoiceInterface.sess a2)).
Proof.
  intros H.
  by apply (H (VoiceInterface.initApp false ∅)
              1700000000000%N "0.4fzyo82mvyr" 1700000000000%N "0.4fzyo82mvyr").
Qed.

(** C9, amended.  Each reset stores a freshly generated id, in the session
    state and under SESSION_KEY in localStorage, in place of the previous one;
    the ids are non-empty; two consecutive resets produce the same id exactly
    when they read the same clock millisecond and draw the same 9-character
    random fragment, so they are distinct whenever either differs; and a
    reset leaves the recorder and the component's processing, playing and
    level state as they were. *)
Theorem reset_replaces_session_id a now1 random1 now2 random2 :
  let a1 := exec (VoiceInterface.handleResetSession now1 random1) a in
  let a2 := exec (VoiceInterface.handleResetSession now2 random2) a1 in
  let id1 := Session.sessionId (VoiceInterface.sess a1) in
  let id2 := Session.sessionId (VoiceInterface.sess a2) in
  id1 = Session.generateSessionId now1 random1
  ∧ id2 = Session.generateSessionId now2 random2
  ∧ Session.localStorage (VoiceInterface.sess a1) !! Session.SESSION_KEY = Some id1
  ∧ Session.localStorage (VoiceInterface.sess a2) !! Session.SESSION_KEY = Some id2
  ∧ id1 ≠ "" ∧ id2 ≠ ""
  ∧ (id1 = id2 ↔
     now1 = now2 ∧ String.substring 2 9 random1 = String.substring 2 9 random2)
  ∧ VoiceInterface.recw a2 = VoiceInterface.recw a
  ∧ VoiceInterface.ui a2 = VoiceInterface.ui a.
Proof.
  destruct a as [w s u d rq]. simpl. astep.
  split_and!; try done.
  - by rewrite lookup_insert_eq.
  - by rewrite lookup_insert_eq.
  - apply generateSessionId_inj.
Qed.
(** * Further properties of the code *)

(** ** useAudioRecorder: starting *)

(** X1.  When the device refuses ([getUserMedia] rejects), [startRecording]
    logs and rethrows that same error, in both copies of the hook; the hook's
    state is untouched and nothing has been allocated (no stream, context,
    analyser, recorder or animation frame). *)
Theorem start_device_error_rethrows (I : HookImpl) e spectrum w :
  startable I w →
  impl_start I (Some e) spectrum w
  = (Throw e,
     mkWorld (hook w)
       (set_console (console (media w) ++ ["Error starting recording:"])
          (media w))).
Proof.
  intros [[-> Hidle]| ->]; destruct w as [[] []]; simpl in *.
  - unfold Recorder.startRecording. mstep.
    unfold Recorder.stillActive in Hidle. simpl in Hidle. by rewrite Hidle.
  - by mstep.
Qed.

Lemma start_device_error_rethrows_witness :
  Recorder.startRecording (Some notAllowed) flat_spectrum (initWorld false)
  = (Throw notAllowed,
     mkWorld initHook
       (set_console ["Error starting recording:"] (initMedia false))).
Proof.
  exact (start_device_error_rethrows Recorder.impl notAllowed flat_spectrum
           (initWorld false) (or_introl (conj eq_refl eq_refl))).
Defined.

Lemma start_granted (I : HookImpl) spectrum w :
  startable I w →
  impl_start I None spectrum w
  = (Normal tt, started (mean (getByteFrequencyData spectrum) / 255) w).
Proof.
  intros HI.
  assert (impl_start I None spectrum w
          = Part002.startRecording None spectrum w) as ->.
  { destruct HI as [[-> Hidle]| ->]; [|done]. destruct w as [[] []].
    simpl in *. unfold Recorder.startRecording, Part002.startRecording. mstep.
    unfold Recorder.stillActive in Hidle. simpl in Hidle. by rewrite Hidle. }
  destruct w as [[] []]. mstep.
  rewrite (level_Some _ (getByteFrequencyData_nonempty spectrum)). simpl.
  unfold started. simpl.
  rewrite !alter_app_r_alt, Nat.sub_diag by (rewrite ?length_alter; done).
  done.
Qed.



(** ** useAudioRecorder: one recording, its resources *)

Lemma start_holds_resources (I : HookImpl) spectrum w :
  startable I w → 0 < nextFrame (media w) → frames (media w) = [] →
  resources_inv (streams (media w)) (contexts (media w))
    (perform I (Start None spectrum) w).
Proof.
  intros HI Hnext Hframes. simpl. unfold exec.
  rewrite (start_granted I spectrum w HI). unfold started, resources_inv. simpl.
  split_and!; try done. rewrite Hframes. simpl.
  destruct (nextFrame (media w)) as [|n]; [lia|].
  exists n. split_and!; [done..|lia].
Qed.

Lemma resources_step (I : HookImpl) act ss cs w :
  I = Recorder.impl ∨ I = Part002.impl →
  match act with Start _ _ | Stopped _ => False | _ => True end →
  resources_inv ss cs w → resources_inv ss cs (perform I act w).
Proof.
  intros HI Hact (Hrec & [an Han] & Hctx & Hcs & Hss & f & Hf & Hfr & Hlt).
  unfold resources_inv. destruct w as [[] []]; simpl in *; subst.
  destruct act as [| |i data|i|id sp]; try done.
  - destruct HI as [-> | ->]; simpl; mcrush; split_and!; eauto.
  - simpl. mcrush; split_and!; eauto.
  - simpl. mstep.
    rewrite (level_Some _ (getByteFrequencyData_nonempty sp)).
    case_bool_decide as Hin; simpl.
    + apply list_elem_of_singleton in Hin as ->.
      rewrite filter_cons_False, filter_nil by (intros H; by apply H).
      simpl. split_and!; eauto.
      match goal with |- ∃ f', Some ?k = Some (S f') ∧ _ => destruct k as [|n] end;
        [lia|]. exists n. split_and!; [done..|lia].
    + split_and!; eauto.
Qed.

Lemma resources_run (I : HookImpl) acts ss cs w :
  I = Recorder.impl ∨ I = Part002.impl →
  Forall (λ act, match act with Start _ _ | Stopped _ => False | _ => True end)
         acts →
  resources_inv ss cs w → resources_inv ss cs (run I acts w).
Proof.
  intros HI Hacts. revert w.
  induction Hacts as [|act acts Hact _ IH]; intros w Hw; [done|].
  simpl. apply IH. by apply resources_step.
Qed.

Lemma start_records (I : HookImpl) spectrum w :
  startable I w →
  recording_inv (length (recorders (media w))) (length (streams (media w)))
    (length (promises (media w))) []
    (perform I (Start None spectrum) w).
Proof.
  intros [[-> Hidle]| ->]; [by apply start_records_rec|apply start_records_002].
Qed.

Lemma startable_impl I w : startable I w → I = Recorder.impl ∨ I = Part002.impl.
Proof. intros [[-> _]| ->]; auto. Qed.

Lemma deliveries_harmless i (ds : list Delivery) :
  Forall (λ act, match act with Start _ _ | Stopped _ => False | _ => True end)
         (map (deliver i) ds).
Proof. apply Forall_fmap, Forall_forall. by intros []. Qed.

Lemma flush_harmless i (flush : list Blob) :
  Forall (λ act, match act with Start _ _ | Stopped _ => False | _ => True end)
         (map (Data i) flush).
Proof. apply Forall_fmap, Forall_forall. done. Qed.

(** X3.  Ordering of stop.  In both copies, after [stopRecording] has been
    called and while the recorder is still flushing (the [stop] event has not
    fired), the returned promise is pending and the chunk buffer holds, in
    arrival order, every non-empty fragment delivered so far, including those
    that arrived after the stop request: the blob is not assembled early. *)
Theorem stop_promise_pending_until_stop_event (I : HookImpl) spectrum during
    flush w :
  startable I w →
  let i := length (recorders (media w)) in
  let p := length (promises (media w)) in
  let w1 := run I (Start None spectrum :: map (deliver i) during
                     ++ Stop :: map (Data i) flush) w in
  promiseState p w1 = Some Pending
  ∧ audioChunksRef (hook w1) = kept (fragments during ++ flush)
  ∧ mediaRecorderRef (hook w1) = Some i.
Proof.
  intros HI i p w1.
  assert (w1 = run I (map (Data i) flush)
                 (perform I Stop
                    (run I (map (deliver i) during)
                       (perform I (Start None spectrum) w)))) as ->.
  { unfold w1.
    change (run I (Start None spectrum :: ?l) w)
      with (run I l (perform I (Start None spectrum) w)).
    by rewrite run_app. }
  pose proof (startable_impl I w HI) as HI'.
  pose proof (start_records I spectrum w HI) as Hinv.
  apply (deliveries_recording I _ _ _ _ during) in Hinv.
  apply (stop_flushes I) in Hinv; [|done].
  apply (flush_fragments I _ _ _ _ flush) in Hinv.
  destruct Hinv as (Href & _ & Hp & Hbuf). split_and!; [done| |done].
  fold i in Hbuf. rewrite Hbuf. unfold kept. by rewrite filter_app.
Qed.

Lemma stop_promise_pending_until_stop_event_witness :
  let w1 := run Recorder.impl
              [Start None flat_spectrum; Data 0 chunkA; Stop; Data 0 chunk0;
               Data 0 chunkB]
              (initWorld false) in
  promiseState 0 w1 = Some Pending
  ∧ audioChunksRef (hook w1) = [chunkA; chunkB]
  ∧ mediaRecorderRef (hook w1) = Some 0.
Proof.
  exact (stop_promise_pending_until_stop_event Recorder.impl flat_spectrum
           [Fragment chunkA] [chunk0; chunkB] (initWorld false)
           (or_introl (conj eq_refl eq_refl))).
Defined.

Lemma impls_differ : Recorder.impl ≠ Part002.impl.
Proof.
  intros Heq.
  assert (length (streams (media (exec (Recorder.startRecording None flat_spectrum)
                                    (started 0 (initWorld false)))))
          = length (streams (media (exec (Part002.startRecording None flat_spectrum)
                                      (started 0 (initWorld false)))))) as H.
  { change Recorder.startRecording with (impl_start Recorder.impl).
    change Part002.startRecording with (impl_start Part002.impl).
    by rewrite Heq. }
  vm_compute in H. discriminate.
Qed.

Lemma stopped_tears_down (I : HookImpl) i p chunks ss cs w :
  I = Recorder.impl ∨ I = Part002.impl →
  flushing_inv i (length ss) p chunks w → resources_inv ss cs w →
  let w' := perform I (Stopped i) w in
  isRecording (hook w') = false
  ∧ audioLevel (hook w') = 0%Q
  ∧ audioChunksRef (hook w') = []
  ∧ streams (media w') = ss ++ [false]
  ∧ contexts (media w') = cs ++ [false]
  ∧ frames (media w') = []
  ∧ (I = Recorder.impl → mediaRecorderRef (hook w') = None)
  ∧ (I = Part002.impl → mediaRecorderRef (hook w') = Some i).
Proof.
  intros HI (Href & Hrec & Hp & Hbuf)
    (Hflag & [an Han] & Hctx & Hcs & Hss & f & Hf & Hfr & Hlt).
  destruct w as [[] []]; simpl in *; subst.
  assert (∀ (l : list bool), <[length l:=false]> (l ++ [true]) = l ++ [false])
    as Hins.
  { intros l. rewrite insert_app_r_alt, Nat.sub_diag by done. done. }
  destruct HI as [-> | ->]; simpl; mstep; rewrite Hrec; simpl; mstep; lookups;
    rewrite ?Hrec; simpl; rewrite ?Hp; simpl;
    rewrite !Hins, filter_cons_False, filter_nil by (intros H; by apply H);
    split_and!; try done; intros Heq; by destruct impls_differ.
Qed.

(** X4.  Teardown.  Start from a world with no sampling loop pending, run one
    whole recording (start, deliveries, stop request, flush, [stop] event).
    Afterwards, in both copies: the flag is down, the exposed level is 0, the
    chunk buffer is empty, the tracks of the recording's stream are stopped,
    its audio context is closed and no animation frame is pending, so the
    sampling loop is gone.  src/hooks/useAudioRecorder.ts also drops the
    recorder reference; the second copy keeps it. *)
Theorem recording_teardown (I : HookImpl) spectrum during flush w :
  startable I w → 0 < nextFrame (media w) → frames (media w) = [] →
  let i := length (recorders (media w)) in
  let w' := run I (recording_session i spectrum during flush) w in
  isRecording (hook w') = false
  ∧ audioLevel (hook w') = 0%Q
  ∧ audioChunksRef (hook w') = []
  ∧ streams (media w') = streams (media w) ++ [false]
  ∧ contexts (media w') = contexts (media w) ++ [false]
  ∧ frames (media w') = []
  ∧ (I = Recorder.impl → mediaRecorderRef (hook w') = None)
  ∧ (I = Part002.impl → mediaRecorderRef (hook w') = Some i).
Proof.
  intros HI Hnext Hframes i w'.
  pose proof (startable_impl I w HI) as HI'.
  assert (w' = perform I (Stopped i)
                 (run I (map (Data i) flush)
                    (perform I Stop
                       (run I (map (deliver i) during)
                          (perform I (Start None spectrum) w))))) as ->.
  { unfold w', recording_session.
    change (run I (Start None spectrum :: ?l) w)
      with (run I l (perform I (Start None spectrum) w)).
    rewrite run_app.
    change (run I (Stop :: ?l) ?w0) with (run I l (perform I Stop w0)).
    by rewrite run_snoc. }
  pose proof (start_records I spectrum w HI) as Hinv.
  apply (deliveries_recording I _ _ _ _ during) in Hinv.
  apply (stop_flushes I) in Hinv; [|done].
  apply (flush_fragments I _ _ _ _ flush) in Hinv.
  pose proof (start_holds_resources I spectrum w HI Hnext Hframes) as Hres.
  apply (resources_run I (map (deliver i) during)) in Hres;
    [|done|apply deliveries_harmless].
  apply (resources_step I Stop) in Hres; [|done..].
  apply (resources_run I (map (Data i) flush)) in Hres;
    [|done|apply flush_harmless].
  by apply (stopped_tears_down I i _ _ _ _ _ HI' Hinv Hres).
Qed.

Lemma recording_teardown_witness :
  let w' := run Recorder.impl
              (recording_session 0 flat_spectrum
                 [Fragment chunkA; Tick 1 flat_spectrum; Tick 2 flat_spectrum]
                 [chunkB])
              (initWorld false) in
  isRecording (hook w') = false
  ∧ audioLevel (hook w') = 0%Q
  ∧ audioChunksRef (hook w') = []
  ∧ streams (media w') = [false]
  ∧ contexts (media w') = [false]
  ∧ frames (media w') = []
  ∧ (Recorder.impl = Recorder.impl → mediaRecorderRef (hook w') = None)
  ∧ (Recorder.impl = Part002.impl → mediaRecorderRef (hook w') = Some 0).
Proof.
  apply (recording_teardown Recorder.impl flat_spectrum
           [Fragment chunkA; Tick 1 flat_spectrum; Tick 2 flat_spectrum]
           [chunkB] (initWorld false) (or_introl (conj eq_refl eq_refl))).
  - simpl. lia.
  - reflexivity.
Defined.

(** ** useAudioRecorder: invariants of every run *)

Lemma level_Some_range dataArray q :
  level dataArray = Some q → (0 <= q)%Q ∧ (q <= 1)%Q.
Proof.
  intros H. destruct dataArray as [|b rest]; [by vm_compute in H|].
  rewrite level_Some in H by done. injection H as <-. by apply mean_range.
Qed.

Lemma level_range_step (I : HookImpl) act w :
  I = Recorder.impl ∨ I = Part002.impl →
  level_range w → level_range (perform I act w).
Proof.
  intros HI. unfold level_range. destruct w as [[] []].
  destruct HI as [-> | ->]; destruct act; simpl; mcrush.
  all: try (intros _; by eapply level_Some_range).
Qed.

(** X5.  In every world a hook can reach, in both copies and on either kind
    of user agent, the exposed [audioLevel] lies between 0 and 1. *)
Theorem audioLevel_is_a_fraction (I : HookImpl) w :
  I = Recorder.impl ∨ I = Part002.impl → reachable I w →
  (0 <= audioLevel (hook w))%Q ∧ (audioLevel (hook w) <= 1)%Q.
Proof.
  intros HI. apply (reachable_ind I level_range); [done|].
  intros act w'. by apply level_range_step.
Qed.

Lemma audioLevel_is_a_fraction_witness :
  let w := run Part002.impl
             [Start None flat_spectrum; Frame 1 flat_spectrum] (initWorld true) in
  (0 <= audioLevel (hook w))%Q ∧ (audioLevel (hook w) <= 1)%Q.
Proof.
  apply (audioLevel_is_a_fraction Part002.impl); [by right|].
  by exists true, [Start None flat_spectrum; Frame 1 flat_spectrum].
Defined.

Lemma buffer_nonempty_step (I : HookImpl) act w :
  I = Recorder.impl ∨ I = Part002.impl →
  buffer_nonempty w → buffer_nonempty (perform I act w).
Proof.
  intros HI. unfold buffer_nonempty. destruct w as [[] []].
  destruct HI as [-> | ->]; destruct act; simpl; mcrush.
  all: try (intros ?; apply Forall_app; split; [done|];
            apply Forall_singleton; by apply Nat.ltb_lt).
Qed.

(** X6.  In every world a hook can reach, in both copies, the chunk buffer
    contains no empty fragment: [ondataavailable] is the only writer and it
    drops fragments of size 0. *)
Theorem chunk_buffer_has_no_empty_fragment (I : HookImpl) w :
  I = Recorder.impl ∨ I = Part002.impl → reachable I w →
  Forall (λ b, 0 < size b) (audioChunksRef (hook w)).
Proof.
  intros HI. apply (reachable_ind I buffer_nonempty); [by constructor|].
  intros act w'. by apply buffer_nonempty_step.
Qed.

Lemma chunk_buffer_has_no_empty_fragment_witness :
  Forall (λ b, 0 < size b)
    (audioChunksRef
       (hook (run Recorder.impl
                [Start None flat_spectrum; Data 0 chunk0; Data 0 chunkA]
                (initWorld false)))).
Proof.
  apply (chunk_buffer_has_no_empty_fragment Recorder.impl); [by left|].
  by exists false, [Start None flat_spectrum; Data 0 chunk0; Data 0 chunkA].
Defined.

Lemma flag_inv_step act w : flag_inv w → flag_inv (perform Recorder.impl act w).
Proof.
  unfold flag_inv. destruct w as [[] []].
  destruct act; simpl; mcrush.
  all: try (intros _; split; [done|by intros [? ?]]).
  all: try (intros _; split; eauto).
Qed.

(** X7.  In src/hooks/useAudioRecorder.ts the exposed [isRecording] flag is up
    exactly when the hook holds a recorder, in every reachable world: the two
    are set together by [startRecording] and cleared together by [onstop].
    (The second copy, which never clears the reference, does not keep this.) *)
Theorem isRecording_iff_recorder_held w :
  reachable Recorder.impl w →
  isRecording (hook w) = true ↔ is_Some (mediaRecorderRef (hook w)).
Proof.
  apply (reachable_ind Recorder.impl flag_inv); [|apply flag_inv_step].
  intros throws. split; [done|by intros [? ?]].
Qed.

Lemma isRecording_iff_recorder_held_witness :
  let w := run Recorder.impl
             [Start None flat_spectrum; Stop; Data 0 chunkA; Stopped 0]
             (initWorld false) in
  isRecording (hook w) = true ↔ is_Some (mediaRecorderRef (hook w)).
Proof.
  apply isRecording_iff_recorder_held.
  by exists false, [Start None flat_spectrum; Stop; Data 0 chunkA; Stopped 0].
Defined.

(** The second copy breaks the equivalence once a recording has completed. *)
Lemma part002_flag_down_recorder_held :
  let w := run Part002.impl
             [Start None flat_spectrum; Stop; Data 0 chunkA; Stopped 0]
             (initWorld false) in
  reachable Part002.impl w
  ∧ isRecording (hook w) = false
  ∧ mediaRecorderRef (hook w) = Some 0.
Proof.
  split; [by eexists false, _|]. split; vm_compute; reflexivity.
Qed.

(** ** useSession *)

Lemma mount_persists now random36 s :
  let s' := exec (Session.mountEffect now random36) s in
  Session.sessionId s' ≠ ""
  ∧ Session.localStorage s' !! Session.SESSION_KEY = Some (Session.sessionId s').
Proof.
  destruct s as [sid ls]. simpl. astep.
  destruct (ls !! Session.SESSION_KEY) as [[|c rest]|] eqn:Hls; simpl;
    split_and!; try done; by rewrite lookup_insert_eq.
Qed.

(** X8.  The mount effect of [useSession].  If localStorage holds a non-empty
    id under SESSION_KEY, that id becomes the session id and localStorage is
    left as it is (nothing is generated).  If the key is missing or holds the
    empty string, a fresh id is generated and stored under the key.  Either
    way the session id is non-empty afterwards and equals the stored one. *)
Theorem mount_reuses_or_creates now random36 s :
  let s' := exec (Session.mountEffect now random36) s in
  let fresh := Session.generateSessionId now random36 in
  match Session.localStorage s !! Session.SESSION_KEY with
  | Some (String c rest) =>
      Session.sessionId s' = String c rest
      ∧ Session.localStorage s' = Session.localStorage s
  | _ =>
      Session.sessionId s' = fresh
      ∧ Session.localStorage s'
        = <[Session.SESSION_KEY := fresh]> (Session.localStorage s)
  end
  ∧ Session.sessionId s' ≠ ""
  ∧ Session.localStorage s' !! Session.SESSION_KEY = Some (Session.sessionId s').
Proof.
  destruct s as [sid ls]. simpl. astep.
  destruct (ls !! Session.SESSION_KEY) as [[|c rest]|] eqn:Hls; simpl;
    split_and!; try done; by rewrite lookup_insert_eq.
Qed.

(** X9.  The session id survives a reload.  Whether the current id was set by
    the mount effect or by [resetSession], a later mount of a fresh hook over
    the same localStorage restores exactly that id and leaves localStorage
    unchanged, whatever the clock and the random draw are by then. *)
Theorem session_id_survives_reload now random36 now' random36' s :
  let reload s1 :=
    exec (Session.mountEffect now' random36')
      (Session.initSession (Session.localStorage s1)) in
  let mounted := exec (Session.mountEffect now random36) s in
  let reset := exec (Session.resetSession now random36) s in
  Session.sessionId (reload mounted) = Session.sessionId mounted
  ∧ Session.localStorage (reload mounted) = Session.localStorage mounted
  ∧ Session.sessionId (reload reset) = Session.sessionId reset
  ∧ Session.localStorage (reload reset) = Session.localStorage reset.
Proof.
  destruct s as [sid ls]. simpl. astep.
  assert (∀ m : gmap string string,
            <[Session.SESSION_KEY:=Session.generateSessionId now random36]> m
            !! Session.SESSION_KEY
            = Some (Session.generateSessionId now random36)) as Hfresh
    by (intros m; apply lookup_insert_eq).
  destruct (ls !! Session.SESSION_KEY) as [id|] eqn:Hls; simpl.
  - destruct (decide (id = "")) as [->|Hne]; simpl.
    + rewrite !Hfresh. simpl. done.
    + rewrite Hls, Hfresh. simpl. rewrite decide_False by done. done.
  - rewrite !Hfresh. simpl. done.
Qed.

(** ** VoiceInterface: the shape of one toggle *)

Lemma stopRecording_normal w :
  Recorder.stopRecording w
  = (Normal (length (promises (media w))), perform Recorder.impl Stop w).
Proof. destruct w as [[] []]. simpl. mcrush. Qed.

Lemma flush_steps i flush w :
  ∃ r, foldr (λ data k, fire_dataavailable i data;; k)
             (fire_stop Recorder.impl i) flush w
       = (r, run Recorder.impl (map (Data i) flush ++ [Stopped i]) w).
Proof.
  revert w. induction flush as [|data flush IH]; intros w.
  - simpl. unfold exec. destruct (fire_stop Recorder.impl i w). eauto.
  - simpl. unfold mbind at 1, M_bind at 1. rewrite fire_dataavailable_normal.
    apply IH.
Qed.

Lemma rec_steps_run acts w w' :
  rec_steps w w' → rec_steps w (run Recorder.impl acts w').
Proof.
  revert w'. induction acts as [|act acts IH]; intros w' H; [done|].
  simpl. apply IH. by constructor.
Qed.

Lemma await_steps flush w :
  rec_steps w (VoiceInterface.awaitStopRecording flush w).2.
Proof.
  unfold VoiceInterface.awaitStopRecording.
  unfold mbind at 1, M_bind at 1. unfold gets at 1.
  unfold mbind at 1, M_bind at 1. rewrite stopRecording_normal.
  assert (rec_steps w (perform Recorder.impl Stop w)) as Hstop
    by (constructor; constructor).
  destruct (mediaRecorderRef (hook w)) as [i|].
  - unfold mbind at 1, M_bind at 1.
    destruct (flush_steps i flush (perform Recorder.impl Stop w)) as [r ->].
    assert (rec_steps w (run Recorder.impl (map (Data i) flush ++ [Stopped i])
                           (perform Recorder.impl Stop w))) as Hrun
      by by apply rec_steps_run.
    destruct r; [|done..]. mstep. by repeat case_match.
  - mstep. by repeat case_match.
Qed.

Lemma start_steps device spectrum w :
  rec_steps w (exec (Recorder.startRecording device spectrum) w).
Proof.
  change (rec_steps w (perform Recorder.impl (Start device spectrum) w)).
  constructor. constructor.
Qed.

Lemma frame_steps id spectrum w :
  rec_steps w (exec (recorder_fire_frame id spectrum) w).
Proof.
  change (rec_steps w (perform Recorder.impl (Frame id spectrum) w)).
  constructor. constructor.
Qed.

(** An invariant of the hook's actions that console output does not disturb
    holds along everything the component does to its recorder. *)
Lemma rec_steps_invariant (P : World → Prop) w w' :
  (∀ act w, P w → P (perform Recorder.impl act w)) →
  (∀ msg w, P w → P (exec (consoleLog msg) w)) →
  rec_steps w w' → P w → P w'.
Proof. intros Hact Hlog Hsteps Hw. induction Hsteps; auto. Qed.

Section VoiceInterfaceMore.
Import VoiceInterface.

(** A toggle either plays nothing, and then changes only the recorder, the
    processing flag, the toasts and the requests; or it is a successful
    exchange followed by [playAudioResponse]. *)
Lemma toggle_cases env a :
  let a' := exec (handleToggleRecording env) a in
  (∃ w' p ts rq',
     a' = mkApp w' (sess a) (set_isProcessing p (ui a))
            (set_toasts (toasts (dom a) ++ ts) (dom a)) rq'
     ∧ rec_steps (recw a) w'
     ∧ (rq' = requests a
        ∨ Session.sessionId (sess a) ≠ ""
          ∧ ∃ blob, rq' = requests a
                            ++ [postOf blob (Session.sessionId (sess a))]))
  ∨ (∃ w' blob r,
       answer env = inr r ∧ AudioApi.ok r = true
       ∧ Session.sessionId (sess a) ≠ ""
       ∧ rec_steps (recw a) w'
       ∧ let a1 := exec (playAudioResponse (AudioApi.body r) (outcome env)
                           (spectrum env))
                     (mkApp w' (sess a) (set_isProcessing true (ui a)) (dom a)
                        (requests a
                           ++ [postOf blob (Session.sessionId (sess a))])) in
         a' = set_ui (set_isProcessing false (ui a1)) a1).
Proof.
  simpl. unfold exec. destruct (isRecording (hook (recw a))) eqn:Hrec.
  - rewrite toggle_when_recording by done.
    destruct a as [w ss u d rq]; simpl in *. astep.
    pose proof (await_steps (flush env) w) as Hsteps.
    destruct (awaitStopRecording (flush env) w) as [[blob|e|] w']; simpl in *.
    + destruct (decide (Session.sessionId ss = "")) as [Hempty|Hsid]; simpl.
      * left. exists w', false, [sessionErrorToast], rq.
        split_and!; [by destruct u|done|by left].
      * destruct (answer env) as [e|r] eqn:Hans; simpl.
        { left. eexists _, false, [errorToast e], _.
          split_and!; [by destruct u|by constructor|right; eauto]. }
        destruct (AudioApi.ok r) eqn:Hok; simpl.
        { right. exists w', blob, r. split_and!; try done.
          match goal with
          | |- context [playAudioResponse ?b ?o ?s ?x] =>
              destruct (play_spec b o s x) as (a1 & Hplay & _);
              change (mkApp w' ss (set_isProcessing true u) d
                        (rq ++ [postOf blob (Session.sessionId ss)])) with x;
              rewrite Hplay
          end. done. }
        left. eexists _, false, [_], _.
        split_and!; [by destruct u|by constructor|right; eauto].
    + left. eexists _, false, [errorToast e], rq.
      split_and!; [by destruct u|by constructor|by left].
    + left. exists w', true, [], rq.
      split_and!; [destruct u, d; simpl; by rewrite app_nil_r|done|by left].
  - rewrite toggle_when_idle by done.
    destruct a as [w ss u d rq]; simpl in *. astep.
    pose proof (start_steps (device env) (spectrum env) w) as Hsteps.
    unfold exec in Hsteps.
    destruct (Recorder.startRecording (device env) (spectrum env) w)
      as [[[]|e|] w']; simpl in *; left.
    + exists w', (isProcessing u), [recordingStartedToast], rq.
      split_and!; [by destruct u|done|by left].
    + eexists _, (isProcessing u), [recordingErrorToast], rq.
      split_and!; [by destruct u|by constructor|by left].
    + exists w', (isProcessing u), [], rq.
      split_and!; [destruct u, d; simpl; by rewrite app_nil_r|done|by left].
Qed.

Lemma play_more audioBlob outcome spectrum a :
  let a' := exec (playAudioResponse audioBlob outcome spectrum) a in
  rec_steps (recw a) (recw a')
  ∧ (playback_range a → playback_range a').
Proof.
  simpl. unfold playback_range.
  assert (∀ w, rec_steps w (exec (consoleLog "Error playing audio:") w)) as Hlog
    by (intros w; constructor; constructor).
  unfold exec in Hlog. destruct a as [w s [] [] rq].
  unfold playAudioResponse, play.
  acrush; split; try done; try constructor; try apply Hlog.
  all: match goal with
       | H : level _ = Some _ |- _ => by destruct (level_Some_range _ _ H)
       end.
Qed.

Lemma graph_whole_play audioBlob outcome spectrum a :
  graph_whole a →
  graph (exec (playAudioResponse audioBlob outcome spectrum) a) = built_graph.
Proof.
  intros [Hp|Hb].
  - by apply (first_play_builds audioBlob outcome spectrum).
  - rewrite <- Hb.
    apply (graph_complete_stable (Play audioBlob outcome spectrum)).
    by apply built_graph_complete.
Qed.

(** What a toggle does to each part of the component. *)
Lemma toggle_parts env a :
  let a' := exec (handleToggleRecording env) a in
  rec_steps (recw a) (recw a')
  ∧ sess a' = sess a
  ∧ (requests a' = requests a
     ∨ Session.sessionId (sess a) ≠ ""
       ∧ ∃ blob, requests a'
                 = requests a ++ [postOf blob (Session.sessionId (sess a))])
  ∧ (playback_range a → playback_range a')
  ∧ (graph_whole a → graph_whole a').
Proof.
  destruct (toggle_cases env a)
    as [(w' & p & ts & rq' & -> & Hsteps & Hrq)
       |(w' & blob & r & Hans & Hok & Hsid & Hsteps & ->)].
  - simpl. split_and!; try done; by destruct a as [w s [] [] rq].
  - match goal with
    | |- context [exec (playAudioResponse ?b ?o ?s) ?x] =>
        destruct (play_spec b o s x)
          as (a1 & Hplay & Hsess & Hreq & Hhook & Hproc & Hplaying & _ & _);
        pose proof (play_more b o s x) as [Hrec Hrange];
        pose proof (graph_whole_play b o s x) as Hgraph
    end.
    unfold exec in *. rewrite Hplay in *. simpl in *.
    destruct a1 as [w1 s1 u1 d1 rq1]; simpl in *. subst. split_and!.
    + clear -Hsteps Hrec. induction Hrec; [done|by constructor..].
    + done.
    + right. eauto.
    + intros Ha. destruct a as [w s [] d rq].
      specialize (Hrange Ha). by destruct u1.
    + intros Ha. right. destruct a as [w s [] d rq].
      specialize (Hgraph Ha). by destruct u1.
Qed.

Lemma app_reachable_ind (P : App → Prop) :
  (∀ throws stored, P (initApp throws stored)) →
  (∀ act a, P a → P (perform act a)) →
  ∀ a, reachable a → P a.
Proof.
  intros Hinit Hstep a (throws & stored & acts & ->).
  induction acts as [|act acts IH] using rev_ind; [apply Hinit|].
  unfold run. rewrite fold_left_app. simpl. by apply Hstep.
Qed.

(** Every action of the component, seen from its recorder hook. *)
Lemma app_rec_steps act a : rec_steps (recw a) (recw (perform act a)).
Proof.
  destruct act as [now r|env|now r|blob out sp|audio|audio|id sp|id sp]; simpl.
  - destruct a as [w ss u d rq]. acrush; apply rec_steps_refl.
  - apply toggle_parts.
  - destruct a as [w ss u d rq]. acrush; apply rec_steps_refl.
  - apply play_more.
  - destruct a as [w ss [] [] rq]. acrush; apply rec_steps_refl.
  - apply rec_steps_refl.
  - destruct a as [w ss [] [] rq]. acrush; apply rec_steps_refl.
  - destruct a as [w ss u d rq]. unfold exec, inRecorder, zoom. simpl.
    pose proof (frame_steps id sp w) as H. unfold exec in H.
    by destruct (recorder_fire_frame id sp w).
Qed.

Lemma level_range_log msg w : level_range w → level_range (exec (consoleLog msg) w).
Proof. by destruct w as [[] []]. Qed.

Lemma ended_parts audio a :
  let a' := exec (fire_ended audio) a in
  sess a' = sess a ∧ requests a' = requests a ∧ graph a' = graph a
  ∧ (playback_range a → playback_range a').
Proof.
  simpl. unfold playback_range, graph. destruct a as [w ss [] [] rq].
  acrush; split_and!; try done; intros _; split; by compute.
Qed.

Lemma playback_frame_parts id sp a :
  let a' := exec (VoiceInterface.fire_frame id sp) a in
  sess a' = sess a ∧ requests a' = requests a ∧ graph a' = graph a
  ∧ (playback_range a → playback_range a').
Proof.
  simpl. unfold playback_range, graph. destruct a as [w ss [] [] rq].
  acrush; split_and!; try done; intros _;
    match goal with
    | H : level _ = Some _ |- _ => by destruct (level_Some_range _ _ H)
    end.
Qed.

Lemma component_step act a :
  level_range (recw a) ∧ playback_range a ∧ graph_whole a
  ∧ session_persisted (sess a) ∧ requests_wellformed (requests a) →
  level_range (recw (perform act a)) ∧ playback_range (perform act a)
  ∧ graph_whole (perform act a) ∧ session_persisted (sess (perform act a))
  ∧ requests_wellformed (requests (perform act a)).
Proof.
  intros (Hrec & Hpb & Hgraph & Hsess & Hreq). split.
  { apply (rec_steps_invariant level_range (recw a)); [| |apply app_rec_steps|done].
    - intros ? ?. apply level_range_step. by left.
    - apply level_range_log. }
  destruct act as [now r|env|now r|blob out sp|audio|audio|id sp|id sp]; simpl.
  - pose proof (mount_persists now r (sess a)) as [_ Hst].
    destruct a as [w ss u d rq]. unfold exec, inSession, zoom in *. simpl in *.
    destruct (Session.mountEffect now r ss) as [c s']. simpl in *.
    split_and!; [done|done|by right|done].
  - destruct (toggle_parts env a) as (_ & Hs & Hrq & Hrange & Hg).
    split_and!; [by apply Hrange|by apply Hg|by rewrite Hs|].
    destruct Hrq as [->|(Hsid & blob & ->)]; [done|].
    apply Forall_app. split; [done|]. by apply Forall_singleton.
  - split_and!; [done|done| |done].
    right. destruct a as [w [sid ls] u d rq]. astep. by rewrite lookup_insert_eq.
  - destruct (play_spec blob out sp a) as (a' & Hplay & Hs & Hrq & _).
    pose proof (play_more blob out sp a) as [_ Hrange].
    pose proof (graph_whole_play blob out sp a Hgraph) as Hg.
    unfold exec in *. rewrite Hplay in *. simpl in *.
    split_and!; [by apply Hrange|by right|by rewrite Hs|by rewrite Hrq].
  - destruct (ended_parts audio a) as (Hs & Hrq & Hg & Hrange).
    unfold graph_whole. rewrite Hs, Hrq, Hg. auto.
  - done.
  - destruct (playback_frame_parts id sp a) as (Hs & Hrq & Hg & Hrange).
    unfold graph_whole. rewrite Hs, Hrq, Hg. auto.
  - destruct a as [w ss u d rq]. unfold exec, inRecorder, zoom. simpl.
    by destruct (recorder_fire_frame id sp w).
Qed.

Lemma component_inv a :
  reachable a →
  level_range (recw a) ∧ playback_range a ∧ graph_whole a
  ∧ session_persisted (sess a) ∧ requests_wellformed (requests a).
Proof.
  revert a. apply app_reachable_ind; [|apply component_step].
  intros throws stored. split_and!; try done.
  - by left.
  - by left.
  - constructor.
Qed.

(** X10.  What the visualizer is handed.  In every state the component can
    reach, [currentLevel] (the recorder's level while recording, the playback
    level otherwise) is a fraction between 0 and 1. *)
Theorem currentLevel_is_a_fraction a :
  reachable a → (0 <= currentLevel a)%Q ∧ (currentLevel a <= 1)%Q.
Proof.
  intros Ha. destruct (component_inv a Ha) as (Hrec & Hpb & _).
  unfold currentLevel. by destruct (isRecording (hook (recw a))).
Qed.

Lemma currentLevel_is_a_fraction_witness :
  let a := run [Mount 1700000000000 "0.4fzyo82mv"; Toggle happyEnv;
                RecorderFrame 1 flat_spectrum; Toggle happyEnv;
                PlaybackFrame 1 flat_spectrum]
             (initApp false ∅) in
  (0 <= currentLevel a)%Q ∧ (currentLevel a <= 1)%Q.
Proof.
  apply currentLevel_is_a_fraction.
  by exists false, ∅,
    [Mount 1700000000000 "0.4fzyo82mv"; Toggle happyEnv;
     RecorderFrame 1 flat_spectrum; Toggle happyEnv;
     PlaybackFrame 1 flat_spectrum].
Defined.

(** X11.  In every state the component can reach, the playback graph is
    either not built at all or is exactly one element, one context, one
    analyser and one element source wired source -> analyser -> destination:
    no state in between is observable and no second object is ever made. *)
Theorem playback_graph_pristine_or_built a :
  reachable a → graph a = pristine_graph ∨ graph a = built_graph.
Proof. intros Ha. by destruct (component_inv a Ha) as (_ & _ & Hg & _). Qed.

Lemma playback_graph_pristine_or_built_witness :
  let a := run [Toggle happyEnv; Toggle happyEnv; Play chunkA Started flat_spectrum]
             (initApp false ∅) in
  graph a = pristine_graph ∨ graph a = built_graph.
Proof.
  apply playback_graph_pristine_or_built.
  by exists false, ∅,
    [Toggle happyEnv; Toggle happyEnv; Play chunkA Started flat_spectrum].
Defined.

(** X12.  In every state the component can reach, the session id held in
    React state is either still empty (the mount effect has not run) or is
    the value stored under SESSION_KEY in localStorage. *)
Theorem session_state_matches_storage a :
  reachable a →
  Session.sessionId (sess a) = ""
  ∨ Session.localStorage (sess a) !! Session.SESSION_KEY
    = Some (Session.sessionId (sess a)).
Proof. intros Ha. by destruct (component_inv a Ha) as (_ & _ & _ & Hs & _). Qed.

Lemma session_state_matches_storage_witness :
  let a := run [Mount 1700000000000 "0.4fzyo82mv"; Reset 1700000000001 "0.k3v9x0q2a"]
             (initApp false ∅) in
  Session.sessionId (sess a) = ""
  ∨ Session.localStorage (sess a) !! Session.SESSION_KEY
    = Some (Session.sessionId (sess a)).
Proof.
  apply session_state_matches_storage.
  by exists false, ∅,
    [Mount 1700000000000 "0.4fzyo82mv"; Reset 1700000000001 "0.k3v9x0q2a"].
Defined.

(** X13.  Every request the component has ever sent is a POST to API_URL whose
    audio part is named recording.webm and whose session field is not empty. *)
Theorem every_request_is_a_post_with_session a :
  reachable a →
  Forall (λ rq, AudioApi.req_url rq = AudioApi.API_URL
                ∧ AudioApi.req_method rq = "POST"
                ∧ AudioApi.req_filename rq = "recording.webm"
                ∧ AudioApi.req_session rq ≠ "") (requests a).
Proof. intros Ha. by destruct (component_inv a Ha) as (_ & _ & _ & _ & Hr). Qed.

Lemma every_request_is_a_post_with_session_witness :
  let a := run [Mount 1700000000000 "0.4fzyo82mv"; Toggle happyEnv; Toggle happyEnv]
             (initApp false ∅) in
  Forall (λ rq, AudioApi.req_url rq = AudioApi.API_URL
                ∧ AudioApi.req_method rq = "POST"
                ∧ AudioApi.req_filename rq = "recording.webm"
                ∧ AudioApi.req_session rq ≠ "") (requests a).
Proof.
  apply every_request_is_a_post_with_session.
  by exists false, ∅,
    [Mount 1700000000000 "0.4fzyo82mv"; Toggle happyEnv; Toggle happyEnv].
Defined.

















(** ** VoiceInterface: one playback *)

Lemma graph_whole_elements a :
  graph_whole a →
  audioRef (ui a) = None ∧ analyserRef (ui a) = None
  ∧ audioContextRef (ui a) = None ∧ sourceRef (ui a) = None
  ∧ audioElements (dom a) = [] ∧ elementSources (dom a) = []
  ∨ audioRef (ui a) = Some 0 ∧ is_Some (analyserRef (ui a))
    ∧ is_Some (audioContextRef (ui a)) ∧ is_Some (sourceRef (ui a))
    ∧ ∃ el, audioElements (dom a) = [el].
Proof.
  unfold graph_whole, graph, pristine_graph, built_graph.
  intros [H|H]; simplify_eq; [left|right].
  - destruct (audioElements (dom a)); [|done]. by split_and!.
  - repeat match goal with H : _ = Some _ |- _ => rewrite H end.
    destruct (audioElements (dom a)) as [|el [|]]; try done.
    split_and!; eauto.
Qed.

(** What every [playAudioResponse] leaves behind, however [audio.play()]
    turns out. *)
Lemma play_binds audioBlob outcome spectrum a :
  graph_whole a →
  let a' := exec (playAudioResponse audioBlob outcome spectrum) a in
  let u := length (objectURLs (dom a)) in
  audioElements (dom a') = [mkAudio (Some u) true (Some u)]
  ∧ objectURLs (dom a') = objectURLs (dom a) ++ [(audioBlob, true)]
  ∧ is_Some (analyserRef (ui a')).
Proof.
  intros Hg.
  destruct (graph_whole_elements a Hg)
    as [(Ha & Han & Hc & Hs & Hel & Hsrc)|(Ha & [an Han] & [c Hc] & [s Hs] & el & Hel)];
    destruct a as [w ss [] [] rq]; simpl in *; subst;
    unfold playAudioResponse, play; acrush; eauto.
Qed.

Lemma play_started_spec audioBlob spectrum a :
  graph_whole a →
  ∃ a',
    playAudioResponse audioBlob Started spectrum a = (Normal tt, a')
    ∧ recw a' = recw a ∧ sess a' = sess a ∧ requests a' = requests a
    ∧ isPlaying (ui a') = true
    ∧ isProcessing (ui a') = isProcessing (ui a)
    ∧ playbackLevel (ui a') = (mean (getByteFrequencyData spectrum) / 255)%Q
    ∧ animationFrameRef (ui a') = Some (rafNext (dom a))
    ∧ rafQueue (dom a') = rafQueue (dom a) ++ [rafNext (dom a)]
    ∧ rafNext (dom a') = S (rafNext (dom a))
    ∧ toasts (dom a') = toasts (dom a).
Proof.
  intros Hg.
  destruct (graph_whole_elements a Hg)
    as [(Ha & Han & Hc & Hs & Hel & Hsrc)|(Ha & [an Han] & [c Hc] & [s Hs] & el & Hel)];
    destruct a as [w ss [] [] rq]; simpl in *; subst;
    unfold playAudioResponse, play; astep;
    rewrite (level_Some _ (getByteFrequencyData_nonempty spectrum)); simpl;
    eexists; (split; [done|]); simpl; by split_and!.
Qed.

Lemma play_starts_playing urls audioBlob spectrum a :
  graph_whole a → objectURLs (dom a) = urls →
  rafQueue (dom a) = [] → 0 < rafNext (dom a) →
  playing_inv urls audioBlob (perform (Play audioBlob Started spectrum) a).
Proof.
  intros Hg Hurls Hq Hnext. simpl.
  destruct (play_binds audioBlob Started spectrum a Hg) as (Hel & Hu & Han).
  destruct (play_started_spec audioBlob spectrum a Hg)
    as (a' & Hplay & _ & _ & _ & Hp & _ & _ & Hf & Hq' & Hn' & _).
  unfold exec in *. rewrite Hplay in *. simpl in *. subst urls.
  split_and!; try done. rewrite Hq', Hq, Hf, Hn'. simpl.
  destruct (rafNext (dom a)) as [|n]; [lia|]. exists n. split_and!; [done..|lia].
Qed.

Lemma playing_frame urls blob id sp a :
  playing_inv urls blob a → playing_inv urls blob (perform (PlaybackFrame id sp) a).
Proof.
  intros (Hp & [an Han] & Hel & Hu & f & Hf & Hq & Hlt).
  unfold playing_inv. destruct a as [w ss [] [] rq]; simpl in *; subst.
  astep. rewrite (level_Some _ (getByteFrequencyData_nonempty sp)).
  case_bool_decide as Hin; simpl.
  - apply list_elem_of_singleton in Hin as ->.
    rewrite filter_cons_False, filter_nil by (intros H; by apply H).
    simpl. split_and!; eauto.
    match goal with |- ∃ f', Some ?k = Some (S f') ∧ _ => destruct k as [|n] end;
      [lia|]. exists n. split_and!; [done..|lia].
  - split_and!; eauto.
Qed.

Lemma playing_frames urls blob (ticks : list (nat * (nat → Byte.byte))) a :
  playing_inv urls blob a →
  playing_inv urls blob (run (map (λ t, PlaybackFrame t.1 t.2) ticks) a).
Proof.
  revert a. induction ticks as [|[id sp] ticks IH]; intros a Ha; [done|].
  simpl. apply IH. by apply playing_frame.
Qed.

Lemma ended_after_playing urls blob a :
  playing_inv urls blob a →
  let a' := perform (Ended 0) a in
  isPlaying (ui a') = false
  ∧ playbackLevel (ui a') = 0%Q
  ∧ rafQueue (dom a') = []
  ∧ objectURLs (dom a') = urls ++ [(blob, false)].
Proof.
  intros (Hp & [an Han] & Hel & Hu & f & Hf & Hq & Hlt).
  destruct a as [w ss [] [] rq]; simpl in *; subst. astep.
  rewrite filter_cons_False, filter_nil by (intros H; by apply H).
  rewrite alter_app_r_alt, Nat.sub_diag by done. done.
Qed.

(** X16.  One playback from start to end.  Take a component whose playback
    graph is pristine or built and that has no animation frame pending.
    After [playAudioResponse] has started playback, and after any number of
    animation frames (current or stale), the component is playing with
    exactly one frame request pending and the object URL of the response
    live.  When the element then fires [ended], the playing flag is down,
    the exposed level is 0, no frame request is pending (the sampling loop is
    gone) and the object URL has been revoked. *)
Theorem playback_runs_and_ends audioBlob spectrum
    (ticks : list (nat * (nat → Byte.byte))) a :
  graph a = pristine_graph ∨ graph a = built_graph →
  rafQueue (dom a) = [] → 0 < rafNext (dom a) →
  let a1 := run (map (λ t, PlaybackFrame t.1 t.2) ticks)
              (perform (Play audioBlob Started spectrum) a) in
  let a2 := perform (Ended 0) a1 in
  isPlaying (ui a1) = true
  ∧ length (rafQueue (dom a1)) = 1
  ∧ objectURLs (dom a1) = objectURLs (dom a) ++ [(audioBlob, true)]
  ∧ isPlaying (ui a2) = false
  ∧ playbackLevel (ui a2) = 0%Q
  ∧ rafQueue (dom a2) = []
  ∧ objectURLs (dom a2) = objectURLs (dom a) ++ [(audioBlob, false)].
Proof.
  intros Hg Hq Hnext a1 a2.
  pose proof (play_starts_playing _ audioBlob spectrum a Hg eq_refl Hq Hnext) as H.
  apply (playing_frames _ _ ticks) in H. fold a1 in H.
  destruct (ended_after_playing _ _ a1 H) as (? & ? & ? & ?).
  destruct H as (Hp & _ & _ & Hu & f & _ & Hq1 & _).
  split_and!; try done. by rewrite Hq1.
Qed.

Lemma playback_runs_and_ends_witness :
  let a1 := run [PlaybackFrame 1 flat_spectrum; PlaybackFrame 1 flat_spectrum;
                 PlaybackFrame 2 flat_spectrum]
              (perform (Play chunkA Started flat_spectrum) (initApp false ∅)) in
  let a2 := perform (Ended 0) a1 in
  isPlaying (ui a1) = true
  ∧ length (rafQueue (dom a1)) = 1
  ∧ objectURLs (dom a1) = [(chunkA, true)]
  ∧ isPlaying (ui a2) = false
  ∧ playbackLevel (ui a2) = 0%Q
  ∧ rafQueue (dom a2) = []
  ∧ objectURLs (dom a2) = [(chunkA, false)].
Proof.
  apply (playback_runs_and_ends chunkA flat_spectrum
           [(1, flat_spectrum); (1, flat_spectrum); (2, flat_spectrum)]
           (initApp false ∅)).
  - by left.
  - reflexivity.
  - simpl. lia.
Defined.

(** ** VoiceInterface: object URLs *)

Lemma never_revoked_play n b audioBlob outcome spectrum a :
  never_revoked n b (dom a) →
  never_revoked n b (dom (exec (playAudioResponse audioBlob outcome spectrum) a)).
Proof.
  intros [Hb Hel].
  pose proof (lookup_lt_Some _ _ _ Hb) as Hlt.
  assert (∀ k (els : list AudioElement) (urls : list (Blob * bool)),
            n < length urls →
            Forall (λ el, ∀ u, el_onended el = Some u → n < u) els →
            Forall (λ el, ∀ u, el_onended el = Some u → n < u)
              (alter (λ _, mkAudio (Some (length urls)) true (Some (length urls)))
                 k els)) as Halter.
  { intros k els urls Hn Hels. apply Forall_alter; [done|].
    intros el _ _ u Hu. simpl in Hu. by simplify_eq. }
  unfold never_revoked. destruct a as [w ss [] [] rq]; simpl in *.
  unfold playAudioResponse, play.
  acrush; (split; [by apply lookup_app_l_Some|]);
    try (apply Halter; [done|]); try done;
    try (apply Forall_app; split; [done|]; apply Forall_singleton; done).
Qed.

Lemma never_revoked_step n b act a :
  never_revoked n b (dom a) → never_revoked n b (dom (perform act a)).
Proof.
  intros Hn.
  destruct act as [now r|env|now r|blob out sp|audio|audio|id sp|id sp]; simpl.
  - destruct a as [w ss u d rq]. acrush.
  - destruct (toggle_cases env a)
      as [(w' & p & ts & rq' & -> & _)|(w' & blob & r & _ & _ & _ & _ & ->)].
    + by destruct a as [w ss u [] rq].
    + match goal with
      | |- context [exec (playAudioResponse ?b0 ?o ?s) ?x] =>
          pose proof (never_revoked_play n b b0 o s x Hn) as H;
          destruct (exec (playAudioResponse b0 o s) x)
      end. done.
  - destruct a as [w ss u [] rq]. acrush.
  - by apply never_revoked_play.
  - destruct Hn as [Hb Hel]. unfold never_revoked.
    destruct a as [w ss [] [] rq]; simpl in *. acrush.
    all: match goal with
         | H : _ !! _ = Some ?el, H' : el_onended ?el = Some ?u |- _ =>
             pose proof (proj1 (Forall_lookup _ _) Hel _ _ H _ H') as Hlt
         end.
    all: split; [|done]; rewrite list_lookup_alter_ne by lia; done.
  - done.
  - destruct Hn as [Hb Hel]. unfold never_revoked.
    destruct a as [w ss [] [] rq]; simpl in *. acrush; eauto.
  - destruct a as [w ss u d rq]. unfold exec, inRecorder, zoom. simpl.
    by destruct (recorder_fire_frame id sp w).
Qed.

(** X17.  An object URL survives being superseded.  Each [playAudioResponse]
    overwrites [audio.onended], the only place a URL is revoked.  So when a
    second response is played before the first has fired [ended] (for
    instance because the first playback was refused and never ends), the
    first response's object URL is still live after any further actions of
    the component (ended events, plays, toggles, frames, resets): nothing
    revokes it. *)
Theorem superseded_url_is_never_revoked b1 o1 s1 b2 o2 s2 rest a :
  graph a = pristine_graph ∨ graph a = built_graph →
  let a2 := perform (Play b2 o2 s2) (perform (Play b1 o1 s1) a) in
  objectURLs (dom (run rest a2)) !! length (objectURLs (dom a)) = Some (b1, true).
Proof.
  intros Hg a2.
  assert (never_revoked (length (objectURLs (dom a))) b1 (dom a2)) as Hn.
  { pose proof (play_binds b1 o1 s1 a Hg) as (Hel1 & Hu1 & _).
    assert (graph_whole (perform (Play b1 o1 s1) a)) as Hg1
      by (right; by apply graph_whole_play).
    pose proof (play_binds b2 o2 s2 _ Hg1) as (Hel2 & Hu2 & _).
    simpl in *. unfold a2. simpl. split.
    - rewrite Hu2, Hu1.
      rewrite lookup_app_l by (rewrite length_app; simpl; lia).
      by apply list_lookup_middle.
    - rewrite Hel2, Hu1. apply Forall_singleton. intros u Hu. simpl in Hu.
      simplify_eq. rewrite length_app. simpl. lia. }
  clearbody a2. revert a2 Hn.
  induction rest as [|act rest IH]; intros a2 Hn; simpl.
  - by destruct Hn.
  - apply IH. by apply never_revoked_step.
Qed.

Lemma superseded_url_is_never_revoked_witness :
  let a2 := perform (Play chunkB Started flat_spectrum)
              (perform (Play chunkA Started flat_spectrum) (initApp false ∅)) in
  objectURLs (dom (run [Ended 0; PlaybackFrame 2 flat_spectrum] a2)) !! 0
  = Some (chunkA, true).
Proof.
  apply (superseded_url_is_never_revoked chunkA Started flat_spectrum
           chunkB Started flat_spectrum [Ended 0; PlaybackFrame 2 flat_spectrum]
           (initApp false ∅)).
  by left.
Defined.

(** ** VoiceInterface: the branches of a toggle *)







(** ** VoiceInterface and useSession *)

Lemma session_nonempty_step act a :
  Session.sessionId (sess a) ≠ "" → Session.sessionId (sess (perform act a)) ≠ "".
Proof.
  intros Hs.
  destruct act as [now r|env|now r|blob out sp|audio|audio|id sp|id sp]; simpl.
  - pose proof (mount_persists now r (sess a)) as [Hne _].
    destruct a as [w ss u d rq]. unfold exec, inSession, zoom in *. simpl in *.
    by destruct (Session.mountEffect now r ss).
  - destruct (toggle_parts env a) as (_ & -> & _). done.
  - destruct a as [w [sid ls] u d rq]. by astep.
  - destruct (play_spec blob out sp a) as (a' & Hplay & Hs' & _).
    unfold exec. rewrite Hplay. simpl. by rewrite Hs'.
  - destruct (ended_parts audio a) as (-> & _). done.
  - done.
  - destruct (playback_frame_parts id sp a) as (-> & _). done.
  - destruct a as [w ss u d rq]. unfold exec, inRecorder, zoom. simpl.
    by destruct (recorder_fire_frame id sp w).
Qed.

(** X21.  Once the mount effect has run, the session id the component holds
    is never empty again, whatever localStorage held and whatever happens
    afterwards (toggles, resets, plays, events, frames, further mounts): the
    Session Error branch of [handleToggleRecording] can only be taken before
    the mount effect. *)
Theorem session_id_nonempty_after_mount now random36 rest a :
  Session.sessionId (sess (run (Mount now random36 :: rest) a)) ≠ "".
Proof.
  simpl.
  assert (Session.sessionId
            (sess (exec (inSession (Session.mountEffect now random36)) a)) ≠ "")
    as Hm.
  { pose proof (mount_persists now random36 (sess a)) as [Hne _].
    destruct a as [w ss u d rq]. unfold exec, inSession, zoom in *. simpl in *.
    by destruct (Session.mountEffect now random36 ss). }
  revert Hm. generalize (exec (inSession (Session.mountEffect now random36)) a).
  induction rest as [|act rest IH]; intros a1 Ha1; [done|].
  simpl. apply IH. by apply session_nonempty_step.
Qed.
End VoiceInterfaceMore.

(** ** useAudioRecorder: stopping twice *)

Lemma orphaned_step_rec a p w :
  orphaned p w → orphaned p (perform Recorder.impl a w).
Proof.
  intros [Hp Hrec]. pose proof (lookup_lt_Some _ _ _ Hp) as Hlt.
  unfold orphaned. destruct w as [[] []]; simpl in *.
  destruct a; simpl; mcrush.
  all: split; [try done|].
  all: try (intros j r Hj Hq; alter_cases; try done; try (by eapply Hrec);
            try (intros [= ?]; lia)).
  all: try (rewrite lookup_app_l by lia; done).
  all: try (rewrite list_lookup_insert_ne by lia; rewrite lookup_app_l by lia; done).
  all: try (rewrite list_lookup_insert_ne; [done|]; intros ->;
            match goal with
            | H : _ !! _ = Some ?m, Hq : mr_stopQueued ?m = true |- _ =>
                by apply (Hrec _ _ H Hq)
            end).
Qed.

Lemma orphaned_forever I acts p w :
  I = Recorder.impl ∨ I = Part002.impl →
  orphaned p w → orphaned p (run I acts w).
Proof.
  intros HI. revert w. induction acts as [|a acts IH]; intros w Hw; [done|].
  simpl. apply IH. destruct HI as [-> | ->];
    [by apply orphaned_step_rec|by apply orphaned_step].
Qed.

Lemma second_stop I i s p cs w :
  I = Recorder.impl ∨ I = Part002.impl →
  flushing_inv i s p cs w → sole_holder i p w →
  stopInactiveThrows (media w) = false →
  flushing_inv i s (length (promises (media w))) cs (perform I Stop w)
  ∧ orphaned p (perform I Stop w).
Proof.
  intros HI (Href & Hrec & Hp & Hcs) Hsole Hthrows.
  pose proof (lookup_lt_Some _ _ _ Hp) as Hlt.
  unfold flushing_inv, orphaned, sole_holder in *.
  destruct w as [[] []]; simpl in *; subst.
  destruct HI as [-> | ->]; simpl; mstep; lookups; rewrite Hrec; simpl.
  all: split; [split_and!; try done; lookups; by rewrite ?Hrec|].
  all: split; [by rewrite lookup_app_l by lia|].
  all: intros j r Hj Hq Hon; alter_cases; simplify_eq; try lia.
  all: match goal with
       | H : _ !! ?j = Some ?r, H' : mr_onstop ?r = Some _ |- _ =>
           by pose proof (Hsole _ _ H H')
       end.
Qed.

Lemma settled_step I a p st w :
  I = Recorder.impl ∨ I = Part002.impl →
  settled p st w → settled p st (perform I a w).
Proof.
  intros HI [Hst Hne]. pose proof (lookup_lt_Some _ _ _ Hst) as Hlt.
  unfold settled, promiseState in *. destruct w as [[] []]; simpl in *.
  split; [|done].
  destruct HI as [-> | ->]; destruct a; simpl; mcrush.
  all: try (rewrite list_lookup_insert_ne by lia; rewrite lookup_app_l by lia; done).
  all: try (rewrite lookup_app_l by lia; done).
  all: try (match goal with
            | |- <[?q:=_]> _ !! ?p' = _ =>
                destruct (decide (q = p')) as [->|];
                [congruence|by rewrite list_lookup_insert_ne by done]
            end).
Qed.

Lemma settled_forever I acts p st w :
  I = Recorder.impl ∨ I = Part002.impl →
  settled p st w → settled p st (run I acts w).
Proof.
  intros HI. revert w. induction acts as [|a acts IH]; intros w Hw; [done|].
  simpl. apply IH. by apply settled_step.
Qed.

Lemma second_stop_throws I i s p cs w :
  I = Recorder.impl ∨ I = Part002.impl →
  flushing_inv i s p cs w → sole_holder i p w →
  stopInactiveThrows (media w) = true →
  settled (length (promises (media w))) (Rejected invalidState) (perform I Stop w)
  ∧ orphaned p (perform I Stop w).
Proof.
  intros HI (Href & Hrec & Hp & Hcs) Hsole Hthrows.
  pose proof (lookup_lt_Some _ _ _ Hp) as Hlt.
  unfold settled, promiseState, orphaned, sole_holder in *.
  destruct w as [[] []]; simpl in *; subst.
  destruct HI as [-> | ->]; simpl; mstep; lookups; rewrite Hrec; simpl;
    lookups.
  all: split; [split; [|done]; by rewrite list_lookup_insert_eq
                                 by (rewrite length_app; simpl; lia)|].
  all: split; [rewrite list_lookup_insert_ne by lia; by rewrite lookup_app_l by lia|].
  all: intros j r Hj Hq Hon; alter_cases; simplify_eq; try lia.
  all: match goal with
       | H : _ !! ?j = Some ?r, H' : mr_onstop ?r = Some _ |- _ =>
           by pose proof (Hsole _ _ H H')
       end.
Qed.

(** X22.  Stopping twice.  In both copies, take a recorder that has been
    asked to stop on behalf of promise [p] and has not fired [stop] yet, and
    call [stopRecording] again.  The second call overwrites [onstop], so on
    a user agent where [stop()] on an inactive recorder returns, the second
    promise is the one the [stop] event resolves, with every non-empty
    fragment buffered and flushed, while the first promise stays pending
    whatever happens afterwards. *)
Theorem second_stop_supersedes_first (I : HookImpl) i s p cs flush rest w :
  I = Recorder.impl ∨ I = Part002.impl →
  flushing_inv i s p cs w → sole_holder i p w →
  stopInactiveThrows (media w) = false →
  let p' := length (promises (media w)) in
  let w1 := perform I Stop w in
  promiseState p' (run I (map (Data i) flush ++ [Stopped i]) w1)
  = Some (Resolved (newBlob (cs ++ kept flush) "audio/webm"))
  ∧ promiseState p (run I rest w1) = Some Pending.
Proof.
  intros HI Hinv Hsole Hthrows p' w1.
  destruct (second_stop I i s p cs w HI Hinv Hsole Hthrows) as [Hinv' Horph].
  split.
  - rewrite run_snoc. apply (stopped_resolves I i s); [done|].
    by apply flush_fragments.
  - by destruct (orphaned_forever I rest p _ HI Horph).
Qed.

Lemma second_stop_supersedes_first_witness :
  let w := run Recorder.impl [Start None flat_spectrum; Data 0 chunkA; Stop]
             (initWorld false) in
  let w1 := perform Recorder.impl Stop w in
  promiseState 1 (run Recorder.impl (map (Data 0) [chunkB] ++ [Stopped 0]) w1)
  = Some (Resolved (newBlob ([chunkA] ++ kept [chunkB]) "audio/webm"))
  ∧ promiseState 0 (run Recorder.impl [Start None flat_spectrum; Stop] w1)
    = Some Pending.
Proof.
  apply (second_stop_supersedes_first Recorder.impl 0 0 0 [chunkA] [chunkB]
           [Start None flat_spectrum; Stop]
           (run Recorder.impl [Start None flat_spectrum; Data 0 chunkA; Stop]
              (initWorld false))).
  - by left.
  - vm_compute. by split_and!.
  - intros [|j] r Hj Hr; [done|]. vm_compute in Hj. done.
  - reflexivity.
Defined.

(** X23.  Stopping twice where [stop()] throws on an inactive recorder.  The
    second call has already overwritten [onstop] when [stop()] throws, so the
    second promise is rejected with the InvalidStateError and stays so, the
    first promise stays pending, and the [stop] event's [resolve] finds a
    promise that is already settled: in both copies no promise ever delivers
    the recording. *)
Theorem second_stop_on_throwing_agent (I : HookImpl) i s p cs rest w :
  I = Recorder.impl ∨ I = Part002.impl →
  flushing_inv i s p cs w → sole_holder i p w →
  stopInactiveThrows (media w) = true →
  let p' := length (promises (media w)) in
  let w1 := run I rest (perform I Stop w) in
  promiseState p' w1 = Some (Rejected invalidState)
  ∧ promiseState p w1 = Some Pending.
Proof.
  intros HI Hinv Hsole Hthrows p' w1.
  destruct (second_stop_throws I i s p cs w HI Hinv Hsole Hthrows)
    as [Hrej Horph].
  split.
  - by destruct (settled_forever I rest _ _ _ HI Hrej).
  - by destruct (orphaned_forever I rest p _ HI Horph).
Qed.

Lemma second_stop_on_throwing_agent_witness :
  let w := run Recorder.impl [Start None flat_spectrum; Data 0 chunkA; Stop]
             (initWorld true) in
  let w1 := run Recorder.impl [Data 0 chunkB; Stopped 0]
              (perform Recorder.impl Stop w) in
  promiseState 1 w1 = Some (Rejected invalidState)
  ∧ promiseState 0 w1 = Some Pending.
Proof.
  apply (second_stop_on_throwing_agent Recorder.impl 0 0 0 [chunkA]
           [Data 0 chunkB; Stopped 0]
           (run Recorder.impl [Start None flat_spectrum; Data 0 chunkA; Stop]
              (initWorld true))).
  - by left.
  - vm_compute. by split_and!.
  - intros [|j] r Hj Hr; [done|]. vm_compute in Hj. done.
  - reflexivity.
Defined.
